(** * celery.beat: the periodic task scheduler

    A shallow embedding of [celery/beat.py]: [ScheduleEntry], [Scheduler]
    and [ClockService].  Python objects that the module only passes along
    (call arguments, options) are carried as opaque values; the schedule
    policies of [celery.schedules], the transport ([send_task]) and the
    wall clock ([datetime.now]) are supplied by an environment.

    Conventions.
    - A [datetime] is an integer number of microseconds on the wall clock;
      a [timedelta] is an integer number of microseconds.  The "remaining"
      value a policy reports is an integer too (the source only compares
      it, tests its truth value and takes a minimum).
    - A Python [dict] that is iterated is an association list with unique
      keys whose order is the iteration order; storing under a key that is
      present replaces the value in place, storing under a new key
      changes the size of the dict (and the order, in a way the hash
      table decides: nothing below depends on where the new key stands).
    - Methods run in a state-and-exception monad; the state survives a
      raised exception, as the heap does in Python.
    - A policy's [is_due] is a function: it always answers.  Loggers are
      not arguments; what is logged goes to the trace of effects. *)

From Stdlib Require Import ZArith List String Bool Lia PeanoNat.
Import ListNotations.
Open Scope string_scope.
Open Scope list_scope.
Open Scope Z_scope.

Set Implicit Arguments.

(** ** Python values and exceptions *)

(** Values the scheduler passes along without looking inside. *)
#[local] Unset Elimination Schemes.
Inductive pyval : Type :=
| PNone
| PInt (z : Z)
| PStr (s : string)
| PTuple (items : list pyval)
| PDict (items : list (string * pyval)).
#[local] Set Elimination Schemes.

Inductive exn : Type :=
| SchedulingError (task : string) (cause : exn)
| RuntimeError
| AttributeError
| KeyError (key : string)
| TypeError
| ValueError
| OverflowError
| IOError
| KeyboardInterrupt
| SystemExit
| OtherError (msg : string).

(** [isinstance(e, Exception)]: the two shutdown signals derive from
    [BaseException] only. *)
Definition is_Exception (e : exn) : bool :=
  match e with
  | KeyboardInterrupt | SystemExit => false
  | _ => true
  end.

Definition is_SchedulingError (e : exn) : bool :=
  match e with
  | SchedulingError _ _ => true
  | _ => false
  end.

Definition is_RuntimeError (e : exn) : bool :=
  match e with
  | RuntimeError => true
  | _ => false
  end.

(** [except (KeyboardInterrupt, SystemExit)] *)
Definition is_interrupt (e : exn) : bool :=
  match e with
  | KeyboardInterrupt | SystemExit => true
  | _ => false
  end.

(** ** The state-and-exception monad *)

Inductive outcome (A : Type) : Type :=
| Ret (a : A)
| Raise (e : exn).
Arguments Ret {A} a.
Arguments Raise {A} e.

Definition M (S A : Type) : Type := S -> outcome A * S.

Definition ret {S A} (a : A) : M S A := fun s => (Ret a, s).
Definition raise {S A} (e : exn) : M S A := fun s => (Raise e, s).

Definition bind {S A B} (m : M S A) (k : A -> M S B) : M S B :=
  fun s =>
    match m s with
    | (Ret a, s') => k a s'
    | (Raise e, s') => (Raise e, s')
    end.

Definition get {S} : M S S := fun s => (Ret s, s).
Definition gets {S A} (f : S -> A) : M S A := fun s => (Ret (f s), s).
Definition modify {S} (f : S -> S) : M S unit := fun s => (Ret tt, f s).

(** [try: m  except <catches>, exc: handler(exc)  else: orelse(result)].
    Neither the handler nor the else-branch is protected by the [try]. *)
Definition try_except_else {S A B} (m : M S A) (catches : exn -> bool)
    (handler : exn -> M S B) (orelse : A -> M S B) : M S B :=
  fun s =>
    match m s with
    | (Ret a, s') => orelse a s'
    | (Raise e, s') => if catches e then handler e s' else (Raise e, s')
    end.

Definition try_except {S A} (m : M S A) (catches : exn -> bool)
    (handler : exn -> M S A) : M S A :=
  try_except_else m catches handler ret.

(** [try: m  finally: cleanup].  The cleanup runs on both exits; when it
    raises, its exception replaces the pending one. *)
Definition try_finally {S A} (m : M S A) (cleanup : M S unit) : M S A :=
  fun s =>
    match m s with
    | (r, s') =>
        match cleanup s' with
        | (Ret _, s'') => (r, s'')
        | (Raise e, s'') => (Raise e, s'')
        end
    end.

Declare Scope monad_scope.
Delimit Scope monad_scope with monad.
Notation "x <- m ;; k" := (bind m (fun x => k))
  (at level 61, m at next level, right associativity) : monad_scope.
Notation "' pat <- m ;; k" := (bind m (fun x => match x with pat => k end))
  (at level 61, pat pattern, m at next level, right associativity) : monad_scope.
Notation "m ;; k" := (bind m (fun _ => k))
  (at level 61, right associativity) : monad_scope.
Open Scope monad_scope.

(** ** Schedules *)

Definition datetime := Z.
Definition timedelta := Z.

(** What a configuration entry may give under ["schedule"], and what a
    [ScheduleEntry] then holds. *)
Inductive sched : Type :=
| SInt (n : Z)
    (* a Python int: seconds *)
| STimedelta (d : timedelta)
    (* a bare datetime.timedelta *)
| SSchedule (run_every : timedelta) (relative : option bool)
    (* celery.schedules.schedule(run_every, relative) *)
| SPolicy (is_due : datetime -> datetime -> bool * Z).
    (* any other policy object (crontab, ...): its is_due, as a function of
       the clock reading and of last_run_at *)

(** [datetime.timedelta(seconds=s)]: the result is normalised to days,
    seconds and microseconds and the days must fit in nine digits. *)
Definition timedelta_max_days : Z := 999999999.

Definition timedelta_of_seconds (s : Z) : outcome timedelta :=
  if (Z.abs (s / 86400) <=? timedelta_max_days)
  then Ret (s * 1000000)
  else Raise OverflowError.

(** ** Schedule entries *)

Record ScheduleEntry : Type := mkEntry {
  name : string;
  schedule : sched;
  args : pyval;
  kwargs : pyval;
  options : pyval;
  last_run_at : datetime;
  total_run_count : Z
}.

(** A configuration entry: the dict [{"name": .., "schedule": .., ..}]
    given per task in [conf.CELERYBEAT_SCHEDULE].  A field is [None] when
    the key is absent; [c_unknown] lists the keys that are no parameter of
    [ScheduleEntry.__init__] (and are not ["relative"]). *)
Record ConfEntry : Type := mkConf {
  c_name : option string;
  c_schedule : option sched;
  c_args : option pyval;
  c_kwargs : option pyval;
  c_options : option pyval;
  c_last_run_at : option datetime;
  c_total_run_count : option Z;
  c_relative : option bool;
  c_unknown : list string
}.

(** ** The world and the scheduler object *)

Inductive log_level : Type := LDebug | LInfo | LError.

Inductive event : Type :=
| EvIsDue (task : string) (due : bool) (remaining : Z)
    (* entry.is_due() was called and returned (due, remaining) *)
| EvSend (task : string) (a k o : pyval)
    (* send_task(name, args, kwargs, **options) was called *)
| EvLog (level : log_level) (msg : string)
| EvPrint (msg : string)
| EvConnect
| EvClose
| EvSleep (interval : Z)
| EvProcessTitle (title : string)
| EvSync.

Inductive send_result : Type :=
| Sent (task_id : string)
| SendRaises (e : exn).

(** What lies outside the module. *)
Record Env : Type := mkEnv {
  now : nat -> datetime;
    (* the k-th reading of the wall clock *)
  send_task : nat -> string -> pyval -> pyval -> pyval -> send_result;
    (* the k-th call of celery.execute.send_task *)
  schedule_is_due : timedelta -> option bool -> datetime -> datetime -> bool * Z;
    (* celery.schedules.schedule(run_every, relative).is_due, as a function
       of the clock reading and of last_run_at *)
  CELERYBEAT_MAX_LOOP_INTERVAL : Z;
  stop_requested : nat -> bool;
    (* whether another thread has called stop() by the k-th test of the
       shutdown flag *)
  sleep_raises : nat -> option exn
    (* the k-th time.sleep returns, or is left by an exception *)
}.

(** A [Scheduler] instance ([data], [max_interval]), the list object
    [remaining_times] of the running [tick], the global
    [conf.CELERYBEAT_SCHEDULE], and the effects so far. *)
Record State : Type := mkState {
  data : list (string * ScheduleEntry);
  max_interval : Z;
  remaining_times : list Z;
  conf_schedule : list (string * ConfEntry);
  clock_reads : nat;
  sends : nat;
  trace : list event
}.

Definition set_data (d : list (string * ScheduleEntry)) (s : State) : State :=
  mkState d (max_interval s) (remaining_times s) (conf_schedule s)
          (clock_reads s) (sends s) (trace s).
Definition set_max_interval (m : Z) (s : State) : State :=
  mkState (data s) m (remaining_times s) (conf_schedule s)
          (clock_reads s) (sends s) (trace s).
Definition set_remaining_times (r : list Z) (s : State) : State :=
  mkState (data s) (max_interval s) r (conf_schedule s)
          (clock_reads s) (sends s) (trace s).
Definition set_conf_schedule (c : list (string * ConfEntry)) (s : State) : State :=
  mkState (data s) (max_interval s) (remaining_times s) c
          (clock_reads s) (sends s) (trace s).
Definition set_clock_reads (n : nat) (s : State) : State :=
  mkState (data s) (max_interval s) (remaining_times s) (conf_schedule s)
          n (sends s) (trace s).
Definition set_sends (n : nat) (s : State) : State :=
  mkState (data s) (max_interval s) (remaining_times s) (conf_schedule s)
          (clock_reads s) n (trace s).
Definition emit (e : event) (s : State) : State :=
  mkState (data s) (max_interval s) (remaining_times s) (conf_schedule s)
          (clock_reads s) (sends s) (trace s ++ [e]).

(** ** dict operations on association lists *)

Section Dict.
Variable V : Type.

Fixpoint dict_get (k : string) (d : list (string * V)) : option V :=
  match d with
  | [] => None
  | (k', v) :: d' => if String.eqb k k' then Some v else dict_get k d'
  end.

(** [d[k] = v].  A key that is present keeps its place, as it does in the
    hash table.  Where a new key comes to stand in the iteration order is
    up to the hash table; the list puts it last.  An iteration under way
    ends at its next step after such an insertion (see
    [for_itervalues]), and the statements below speak of the keys of a
    grown dict as a set, never of their order. *)
Fixpoint dict_set (k : string) (v : V) (d : list (string * V)) : list (string * V) :=
  match d with
  | [] => [(k, v)]
  | (k', v') :: d' =>
      if String.eqb k k' then (k', v) :: d' else (k', v') :: dict_set k v d'
  end.

Definition keys (d : list (string * V)) : list string := map fst d.
Definition has_key (k : string) (d : list (string * V)) : bool :=
  existsb (String.eqb k) (keys d).
End Dict.

(** ** The clock service object *)

(** A [ClockService] instance.  [_scheduler] tells whether the scheduler
    has been made (it is [None] before); the scheduler's own attributes
    are those of [State]. *)
Record ClockService : Type := mkClockService {
  cs_max_interval : Z;
  cs_schedule : option (list (string * ScheduleEntry));
  _shutdown : bool;
  _stopped : bool;
  _scheduler : bool
}.

Definition set_shutdown (b : bool) (c : ClockService) : ClockService :=
  mkClockService (cs_max_interval c) (cs_schedule c) b (_stopped c) (_scheduler c).
Definition set_stopped (b : bool) (c : ClockService) : ClockService :=
  mkClockService (cs_max_interval c) (cs_schedule c) (_shutdown c) b (_scheduler c).
Definition set_scheduler (b : bool) (c : ClockService) : ClockService :=
  mkClockService (cs_max_interval c) (cs_schedule c) (_shutdown c) (_stopped c) b.

(** [ClockService.__init__]: both flags are fresh events, not set. *)
Definition ClockService_init (max_interval_arg : Z)
    (schedule_arg : option (list (string * ScheduleEntry))) : ClockService :=
  mkClockService max_interval_arg schedule_arg false false false.

(** [silence = self.max_interval < 60 and 10 or 1] *)
Definition silence (c : ClockService) : Z :=
  if cs_max_interval c <? 60 then 10 else 1.

(** The thread that runs [start]: the service, its scheduler and world,
    and how often it has tested the shutdown flag and slept. *)
Record Process : Type := mkProcess {
  service : ClockService;
  world : State;
  shutdown_tests : nat;
  sleeps : nat
}.

Definition on_service (f : ClockService -> ClockService) (p : Process) : Process :=
  mkProcess (f (service p)) (world p) (shutdown_tests p) (sleeps p).
Definition on_world (f : State -> State) (p : Process) : Process :=
  mkProcess (service p) (f (world p)) (shutdown_tests p) (sleeps p).
Definition set_shutdown_tests (n : nat) (p : Process) : Process :=
  mkProcess (service p) (world p) n (sleeps p).
Definition set_sleeps (n : nat) (p : Process) : Process :=
  mkProcess (service p) (world p) (shutdown_tests p) n.

(** A scheduler method run by the service. *)
Definition lift {A} (m : M State A) : M Process A :=
  fun p =>
    match m (world p) with
    | (r, w) => (r, on_world (fun _ => w) p)
    end.

Section Beat.
Variable env : Env.

(** [datetime.now()] *)
Definition datetime_now : M State datetime :=
  fun s => (Ret (now env (clock_reads s)), set_clock_reads (S (clock_reads s)) s).

Definition log (level : log_level) (msg : string) : M State unit :=
  modify (emit (EvLog level msg)).

(** *** ScheduleEntry *)

(** [ScheduleEntry.__init__]: [last_run_at or datetime.now()] and
    [total_run_count or 0]; a datetime is always true. *)
Definition ScheduleEntry_init (n : string) (sc : sched) (a k o : pyval)
    (last : option datetime) (count : option Z) : M State ScheduleEntry :=
  l <- match last with
       | Some t => ret t
       | None => datetime_now
       end ;;
  ret (mkEntry n sc a k o l
         (match count with
          | Some c => if c =? 0 then 0 else c
          | None => 0
          end)).

(** [ScheduleEntry.next] *)
Definition next (self : ScheduleEntry) : M State ScheduleEntry :=
  t <- datetime_now ;;
  ScheduleEntry_init (name self) (schedule self) (args self) (kwargs self)
    (options self) (Some t) (Some (total_run_count self + 1)).

(** [ScheduleEntry.is_due]: [self.schedule.is_due(self.last_run_at)].
    An int or a timedelta has no attribute [is_due]. *)
Definition is_due (self : ScheduleEntry) : M State (bool * Z) :=
  match schedule self with
  | SInt _ | STimedelta _ => raise AttributeError
  | SSchedule run_every relative =>
      t <- datetime_now ;;
      let r := schedule_is_due env run_every relative t (last_run_at self) in
      modify (emit (EvIsDue (name self) (fst r) (snd r))) ;;
      ret r
  | SPolicy p =>
      t <- datetime_now ;;
      let r := p t (last_run_at self) in
      modify (emit (EvIsDue (name self) (fst r) (snd r))) ;;
      ret r
  end.

(** *** Scheduler *)

(** [Scheduler.reserve]: [new_entry = self.schedule[entry.name] = entry.next()] *)
Definition reserve (entry : ScheduleEntry) : M State ScheduleEntry :=
  new_entry <- next entry ;;
  modify (fun s => set_data (dict_set (name entry) new_entry (data s)) s) ;;
  ret new_entry.

(** The call [send_task(entry.name, entry.args, entry.kwargs, **entry.options)]. *)
Definition call_send_task (n : string) (a k o : pyval) : M State string :=
  fun s =>
    let s' := emit (EvSend n a k o) (set_sends (S (sends s)) s) in
    match send_task env (sends s) n a k o with
    | Sent task_id => (Ret task_id, s')
    | SendRaises e => (Raise e, s')
    end.

(** [Scheduler.apply_async].  The keyword arguments it receives (the
    connection) are not used by the body. *)
Definition apply_async (entry : ScheduleEntry) : M State string :=
  entry <- reserve entry ;;
  modify (emit (EvPrint (name entry))) ;;
  try_except
    (call_send_task (name entry) (args entry) (kwargs entry) (options entry))
    is_Exception
    (fun exc => raise (SchedulingError (name entry) exc)).

(** [Scheduler.maybe_due] *)
Definition maybe_due (entry : ScheduleEntry) : M State Z :=
  '(due, next_time_to_run) <- is_due entry ;;
  (if due : bool then
     log LDebug (name entry) ;;
     try_except_else (apply_async entry)
       is_SchedulingError
       (fun exc => log LError (name entry))
       (fun result => log LDebug result)
   else ret tt) ;;
  ret next_time_to_run.

(** [for entry in self.schedule.itervalues(): body(entry)].
    The iterator remembers the size [used] the dict had when it was made
    and walks the positions of the dict itself, not of a copy: each step
    first raises [RuntimeError] when the size has changed, then yields
    the value now stored at the next position, or stops. *)
Fixpoint for_itervalues (left pos used : nat)
    (body : ScheduleEntry -> M State unit) : M State unit :=
  fun s =>
    if negb (Nat.eqb (List.length (data s)) used) then (Raise RuntimeError, s)
    else
      match left with
      | O => (Ret tt, s)
      | S left' =>
          match nth_error (data s) pos with
          | Some (_, entry) =>
              (body entry ;; for_itervalues left' (S pos) used body) s
          | None => (Ret tt, s)
          end
      end.

(** [min(l)] of a list of numbers *)
Definition py_min (l : list Z) : outcome Z :=
  match l with
  | [] => Raise ValueError
  | x :: l' => Ret (fold_left Z.min l' x)
  end.

Definition lift_outcome {A} (r : outcome A) : M State A := fun s => (r, s).

Definition establish_connection : M State unit := modify (emit EvConnect).
Definition connection_close : M State unit := modify (emit EvClose).

(** The body of the loop of [tick]. *)
Definition tick_body (entry : ScheduleEntry) : M State unit :=
  next_time_to_run <- maybe_due entry ;;
  if next_time_to_run =? 0 then ret tt
  else modify (fun s => set_remaining_times (remaining_times s ++ [next_time_to_run]) s).

(** [Scheduler.tick] *)
Definition tick : M State Z :=
  modify (set_remaining_times []) ;;
  establish_connection ;;
  try_finally
    (try_except
       (n <- gets (fun s => List.length (data s)) ;;
        for_itervalues n 0 n tick_body)
       is_RuntimeError
       (fun _ => ret tt))
    connection_close ;;
  rt <- gets remaining_times ;;
  mi <- gets max_interval ;;
  lift_outcome (py_min (rt ++ [mi])).

(** [Scheduler.maybe_schedule] *)
Definition maybe_schedule (s : sched) (relative : option bool) : outcome sched :=
  match s with
  | SInt n =>
      match timedelta_of_seconds n with
      | Ret d => Ret (STimedelta d)
      | Raise e => Raise e
      end
  | STimedelta d => Ret (SSchedule d relative)
  | _ => Ret s
  end.

(** The call of [self.Entry] with the entry dict as keyword arguments: a keyword that is no parameter of
    [ScheduleEntry.__init__], or a missing [name] or [schedule], is a
    [TypeError]. *)
Definition Entry_of_kwargs (c : ConfEntry) : M State ScheduleEntry :=
  match c_unknown c, c_relative c, c_name c, c_schedule c with
  | [], None, Some n, Some sc =>
      ScheduleEntry_init n sc
        (match c_args c with Some a => a | None => PTuple [] end)
        (match c_kwargs c with Some k => k | None => PDict [] end)
        (match c_options c with Some o => o | None => PDict [] end)
        (c_last_run_at c) (c_total_run_count c)
  | _, _, _, _ => raise TypeError
  end.

Definition pop_relative (c : ConfEntry) : ConfEntry :=
  mkConf (c_name c) (c_schedule c) (c_args c) (c_kwargs c) (c_options c)
         (c_last_run_at c) (c_total_run_count c) None (c_unknown c).

Definition put_schedule (sc : sched) (c : ConfEntry) : ConfEntry :=
  mkConf (c_name c) (Some sc) (c_args c) (c_kwargs c) (c_options c)
         (c_last_run_at c) (c_total_run_count c) (c_relative c) (c_unknown c).

(** The loop of [Scheduler.dict_to_entries] over [dict_.items()], for
    [dict_] the global configuration.  The entry dicts are changed in
    place, so every change is written back to the configuration. *)
Fixpoint dict_to_entries_loop (items : list (string * ConfEntry))
    (entries : list (string * ScheduleEntry))
    : M State (list (string * ScheduleEntry)) :=
  match items with
  | [] => ret entries
  | (nm, entry) :: rest =>
      let relative := c_relative entry in
      let entry := pop_relative entry in
      modify (fun s => set_conf_schedule (dict_set nm entry (conf_schedule s)) s) ;;
      sc <- match c_schedule entry with
            | Some s => lift_outcome (maybe_schedule s relative)
            | None => raise (KeyError "schedule")
            end ;;
      let entry := put_schedule sc entry in
      modify (fun s => set_conf_schedule (dict_set nm entry (conf_schedule s)) s) ;;
      e <- Entry_of_kwargs entry ;;
      dict_to_entries_loop rest (dict_set nm e entries)
  end.

Definition dict_to_entries : M State (list (string * ScheduleEntry)) :=
  items <- gets conf_schedule ;;
  dict_to_entries_loop items [].

(** [Scheduler.setup_schedule] *)
Definition setup_schedule : M State unit :=
  entries <- dict_to_entries ;;
  modify (set_data entries).

(** [Scheduler.cleanup] *)
Definition cleanup : M State unit := ret tt.

(** [Scheduler.__init__] *)
Definition Scheduler_init (schedule_arg : option (list (string * ScheduleEntry)))
    (max_interval_arg : option Z) : M State unit :=
  modify (set_data (match schedule_arg with Some d => d | None => [] end)) ;;
  modify (set_max_interval
            (match max_interval_arg with
             | Some m => if m =? 0 then CELERYBEAT_MAX_LOOP_INTERVAL env else m
             | None => CELERYBEAT_MAX_LOOP_INTERVAL env
             end)) ;;
  cleanup ;;
  setup_schedule.

(** *** ClockService *)

(** [ClockService.sync]: [self._stopped.set()] *)
Definition sync (self : ClockService) : ClockService :=
  set_stopped true self.

(** The call [self.sync()], with the call itself recorded. *)
Definition call_sync : M Process unit :=
  modify (on_world (emit EvSync)) ;;
  modify (on_service sync).

(** [ClockService.stop].  With [wait] the caller then blocks on the
    stopped flag, which belongs to the calling thread and changes
    nothing here. *)
Definition stop (wait : bool) : M Process unit :=
  lift (log LInfo "Celerybeat: Shutting down...") ;;
  modify (on_service (set_shutdown true)).

(** The property [ClockService.scheduler]: the scheduler is made on
    first use, from the arguments kept by the constructor. *)
Definition scheduler : M Process unit :=
  p <- get ;;
  if _scheduler (service p) then ret tt
  else
    lift (Scheduler_init (cs_schedule (service p))
                         (Some (cs_max_interval (service p)))) ;;
    modify (on_service (set_scheduler true)).

(** [self._shutdown.isSet()], after the calls of [stop] that other
    threads have made in the meantime. *)
Definition shutdown_isSet : M Process bool :=
  p <- get ;;
  modify (set_shutdown_tests (S (shutdown_tests p))) ;;
  (if stop_requested env (shutdown_tests p) then stop false else ret tt) ;;
  gets (fun p => _shutdown (service p)).

(** [time.sleep(interval)] *)
Definition time_sleep (interval : Z) : M Process unit :=
  p <- get ;;
  modify (set_sleeps (S (sleeps p))) ;;
  modify (on_world (emit (EvSleep interval))) ;;
  match sleep_raises env (sleeps p) with
  | None => ret tt
  | Some e => raise e
  end.

(** [self.debug(...)]: celery.log.SilenceRepeated decides whether the
    line is written; what is written is not recorded. *)
Definition debug (interval : Z) : M Process unit := ret tt.

(** One turn of the [while True] loop after the test of the flag. *)
Definition loop_body : M Process unit :=
  scheduler ;;
  interval <- lift tick ;;
  debug interval ;;
  time_sleep interval.

(** The [while True] loop of [start].  It has no bound of its own; the
    result is [None] when [fuel] turns have not left it. *)
Fixpoint start_loop (fuel : nat) (p : Process) : option (outcome unit * Process) :=
  match fuel with
  | O => None
  | S fuel' =>
      match shutdown_isSet p with
      | (Ret true, p1) => Some (Ret tt, p1)
      | (Ret false, p1) =>
          match loop_body p1 with
          | (Ret _, p2) => start_loop fuel' p2
          | (Raise e, p2) => Some (Raise e, p2)
          end
      | (Raise e, p1) => Some (Raise e, p1)
      end
  end.

(** What precedes the [try] in [start]. *)
Definition start_prelude (embedded_process : bool) : M Process unit :=
  lift (log LInfo "Celerybeat: Starting...") ;;
  scheduler ;;
  lift (log LDebug "Celerybeat: Ticking with max interval") ;;
  if embedded_process
  then modify (on_world (emit (EvProcessTitle "celerybeat")))
  else ret tt.

(** [ClockService.start] *)
Definition start (fuel : nat) (embedded_process : bool) (p : Process)
    : option (outcome unit * Process) :=
  match start_prelude embedded_process p with
  | (Raise e, p1) => Some (Raise e, p1)
  | (Ret _, p1) =>
      match start_loop fuel p1 with
      | None => None
      | Some r =>
          Some (try_finally
                  (try_except (fun _ => r) is_interrupt (fun _ => call_sync))
                  call_sync p1)
      end
  end.

End Beat.

(** * Vocabulary of the statements and concrete worlds

    Abbreviations for the states and event lists the lemmas speak of, the
    invariants of the loops, and the concrete worlds the examples run
    in. *)

(** A clock that reads 1000, 1001, ...; a transport whose first call
    fails and whose later calls succeed; a fixed-interval policy that is
    due once [run_every] has passed since the last run. *)
Definition example_env : Env :=
  mkEnv (fun k => 1000 + Z.of_nat k)
        (fun k _ _ _ _ =>
           if Nat.eqb k 0 then SendRaises (OtherError "broker unreachable")
           else Sent "task-id")
        (fun run_every _ t last =>
           if run_every <=? t - last then (true, run_every)
           else (false, run_every - (t - last)))
        300
        (fun k => Nat.leb 2 k)
        (fun _ => None).

Definition example_entry (n : string) (sc : sched) (last : datetime) : ScheduleEntry :=
  mkEntry n sc (PTuple []) (PDict []) (PDict []) last 0.

Definition example_state (d : list (string * ScheduleEntry)) : State :=
  mkState d 300 [] [] 0 0 [].

(** The entry that [next] makes of [e] when the clock reads [t]. *)
Definition advanced (e : ScheduleEntry) (t : datetime) : ScheduleEntry :=
  mkEntry (name e) (schedule e) (args e) (kwargs e) (options e) t
          (total_run_count e + 1).

(** The state [reserve] leaves. *)
Definition reserved (env : Env) (e : ScheduleEntry) (s : State) : State :=
  set_data (dict_set (name e) (advanced e (now env (clock_reads s))) (data s))
           (set_clock_reads (S (clock_reads s)) s).

(** The state in which [send_task] has been called for [e]. *)
Definition dispatched (env : Env) (e : ScheduleEntry) (s : State) : State :=
  emit (EvSend (name e) (args e) (kwargs e) (options e))
       (set_sends (S (sends s)) (emit (EvPrint (name e)) (reserved env e s))).

(** What [entry.is_due()] answers in state [s]; [None] when the schedule
    has no [is_due]. *)
Definition due_now (env : Env) (e : ScheduleEntry) (s : State) : option (bool * Z) :=
  match schedule e with
  | SInt _ | STimedelta _ => None
  | SSchedule run_every relative =>
      Some (schedule_is_due env run_every relative (now env (clock_reads s))
                            (last_run_at e))
  | SPolicy p => Some (p (now env (clock_reads s)) (last_run_at e))
  end.

(** The state after [entry.is_due()] answered [r]. *)
Definition asked (e : ScheduleEntry) (r : bool * Z) (s : State) : State :=
  emit (EvIsDue (name e) (fst r) (snd r)) (set_clock_reads (S (clock_reads s)) s).

(** The state [maybe_due] leaves for an entry that was due, when the
    dispatch did not break out of it. *)
Definition sent_state (env : Env) (e : ScheduleEntry) (s : State) : State :=
  match send_task env (sends s) (name e) (args e) (kwargs e) (options e) with
  | Sent task_id => emit (EvLog LDebug task_id) (dispatched env e s)
  | SendRaises _ => emit (EvLog LError (name e)) (dispatched env e s)
  end.

(** The two attributes [__init__] assigns before it builds the entries. *)
Definition assigned (d : list (string * ScheduleEntry)) (m : Z) (s : State) : State :=
  set_max_interval m (set_data d s).

(** A computation that neither reads nor writes what [F] sets. *)
Definition commutes {A} (F : State -> State) (m : M State A) : Prop :=
  forall s, m (F s) = (fst (m s), F (snd (m s))).

(** [max_interval or conf.CELERYBEAT_MAX_LOOP_INTERVAL] *)
Definition max_interval_or_default (env : Env) (arg : option Z) : Z :=
  match arg with
  | Some m => if m =? 0 then CELERYBEAT_MAX_LOOP_INTERVAL env else m
  | None => CELERYBEAT_MAX_LOOP_INTERVAL env
  end.

(** The state in which the loop of [tick] starts. *)
Definition tick_started (s : State) : State :=
  emit EvConnect (set_remaining_times [] s).

(** How [tick] ends once the loop has been left in state [s1]. *)
Definition tick_finish (s1 : State) : outcome Z * State :=
  (py_min (remaining_times s1 ++ [max_interval s1]), emit EvClose s1).

(** Appending the remaining time that is true. *)
Definition collect (rem : Z) (s : State) : State :=
  if rem =? 0 then s else set_remaining_times (remaining_times s ++ [rem]) s.

(** The events of one turn. *)
Definition body_events (env : Env) (e : ScheduleEntry) (s : State) : list event :=
  match due_now env e s with
  | None => []
  | Some (false, rem) => [EvIsDue (name e) false rem]
  | Some (true, rem) =>
      [EvIsDue (name e) true rem; EvLog LDebug (name e); EvPrint (name e);
       EvSend (name e) (args e) (kwargs e) (options e)]
      ++ match send_task env (sends s) (name e) (args e) (kwargs e) (options e) with
         | Sent task_id => [EvLog LDebug task_id]
         | SendRaises x => if is_Exception x then [EvLog LError (name e)] else []
         end
  end.

(** The mapping after one turn. *)
Definition body_data (env : Env) (e : ScheduleEntry) (s : State)
    : list (string * ScheduleEntry) :=
  match due_now env e s with
  | Some (true, _) =>
      dict_set (name e) (advanced e (now env (S (clock_reads s)))) (data s)
  | _ => data s
  end.

(** How one turn ends. *)
Definition body_outcome (env : Env) (e : ScheduleEntry) (s : State) : outcome unit :=
  match due_now env e s with
  | None => Raise AttributeError
  | Some (false, _) => Ret tt
  | Some (true, _) =>
      match send_task env (sends s) (name e) (args e) (kwargs e) (options e) with
      | Sent _ => Ret tt
      | SendRaises x => if is_Exception x then Ret tt else Raise x
      end
  end.

(** The remaining time one turn appends. *)
Definition body_collected (env : Env) (e : ScheduleEntry) (s : State) : list Z :=
  match body_outcome env e s, due_now env e s with
  | Ret _, Some (_, rem) => if rem =? 0 then [] else [rem]
  | _, _ => []
  end.

(** A property of the state that a computation keeps, however it ends. *)
Definition preserves {S A} (I : S -> Prop) (m : M S A) : Prop :=
  forall s, I s -> I (snd (m s)).

(** The calls of [sync] in a trace. *)
Definition is_sync (ev : event) : bool :=
  match ev with
  | EvSync => true
  | _ => false
  end.

Definition count_sync (tr : list event) : nat :=
  List.length (filter is_sync tr).

(** How often [sync] has been called in the process. *)
Definition syncs (p : Process) : nat := count_sync (trace (world p)).

(** What the loop keeps: the number of calls of [sync], and (outside the
    test of the flag) the number of tests. *)
Definition loop_inv (n t : nat) (p : Process) : Prop :=
  syncs p = n /\ shutdown_tests p = t.

(** A world in which the first sleep is interrupted from the keyboard and
    nobody asks the service to stop. *)
Definition interrupted_env : Env :=
  mkEnv (now example_env) (send_task example_env) (schedule_is_due example_env)
        300
        (fun _ => false)
        (fun k => if Nat.eqb k 0 then Some KeyboardInterrupt else None).

(** A fresh service over a configuration with one task. *)
Definition example_process : Process :=
  mkProcess (ClockService_init 300 None)
            (mkState [] 0 []
               [("a", mkConf (Some "a") (Some (SSchedule 60000000 None))
                             None None None (Some 0) None None [])]
               0 0 [])
            0 0.

(** The example service once the loop is entered, and once the
    interrupted sleep has left the loop. *)
Definition example_entered : Process :=
  Eval vm_compute in snd (start_prelude interrupted_env false example_process).

Definition example_left : Process :=
  Eval vm_compute in
    match start_loop interrupted_env 1 example_entered with
    | Some (_, p2) => p2
    | None => example_entered
    end.

(** The configuration [{"every-30s": {"name": "tasks.add", "schedule": 30,
    "relative": True}}]. *)
Definition integer_conf : list (string * ConfEntry) :=
  [("every-30s",
    mkConf (Some "tasks.add") (Some (SInt 30)) None None None None None
           (Some true) [])].

Definition integer_conf_state : State :=
  snd (Scheduler_init example_env None None (mkState [] 0 [] integer_conf 0 0 [])).

(** Every stored entry carries a name that is a key of the mapping. *)
Definition names_are_keys (d : list (string * ScheduleEntry)) : bool :=
  forallb (fun kv => has_key (name (snd kv)) d) d.

(** The association list [d] begins with the keys [ks]: whatever is
    stored, no key of [ks] is lost. *)
Definition extends (ks : list string) (d : list (string * ScheduleEntry)) : Prop :=
  exists extra, keys d = ks ++ extra.

(** The keys [ks] exactly, all names among them. *)
Definition settled (ks : list string) (d : list (string * ScheduleEntry)) : Prop :=
  keys d = ks /\ names_are_keys d = true.

(** The operations the claim is about. *)
Inductive operation : Type :=
| OpTick
| OpMaybeDue (entry : ScheduleEntry)
| OpReserve (entry : ScheduleEntry).

Definition run_operation (env : Env) (s : State) (o : operation) : State :=
  match o with
  | OpTick => snd (tick env s)
  | OpMaybeDue entry => snd (maybe_due env entry s)
  | OpReserve entry => snd (reserve env entry s)
  end.

Definition run_operations (env : Env) (ops : list operation) (s : State) : State :=
  fold_left (run_operation env) ops s.

(** The entry handed to [maybe_due] or [reserve] bears a name among
    the keys [ks]. *)
Definition argument_known (ks : list string) (o : operation) : bool :=
  match o with
  | OpTick => true
  | OpMaybeDue entry | OpReserve entry => existsb (String.eqb (name entry)) ks
  end.

(** The configuration [{"every-minute": {"name": "tasks.add",
    "schedule": schedule(timedelta(microseconds=60)), "last_run_at": 0}}]:
    the key of the configuration is not the name of the task. *)
Definition renamed_conf : list (string * ConfEntry) :=
  [("every-minute",
    mkConf (Some "tasks.add") (Some (SSchedule 60 None)) None None None
           (Some 0) None None [])].

Definition renamed_state : State :=
  snd (Scheduler_init example_env None None (mkState [] 0 [] renamed_conf 0 0 [])).

(** Two tasks stored under their own names; the first is due. *)
Definition own_names_state : State :=
  example_state [("a", example_entry "a" (SSchedule 60 None) 900);
                 ("b", example_entry "b" (SSchedule 60 None) 990)].

(** The remaining times that the calls of [is_due] in a trace reported. *)
Definition observed (tr : list event) : list Z :=
  flat_map (fun ev => match ev with
                      | EvIsDue _ _ remaining => [remaining]
                      | _ => []
                      end) tr.

(** The truth value of a number: [if next_time_to_run:]. *)
Definition true_value (z : Z) : bool := negb (z =? 0).

(** What holds of the state during the loop of the [tick] that started
    in [s0] with maximum [m]. *)
Definition collecting (s0 : State) (s' : State) : Prop :=
  max_interval s' = max_interval s0
  /\ exists evs,
       trace s' = trace s0 ++ evs
       /\ remaining_times s' = remaining_times s0 ++ filter true_value (observed evs).

(** The schedule of the entry is a policy object. *)
Definition has_is_due (e : ScheduleEntry) : bool :=
  match schedule e with
  | SInt _ | STimedelta _ => false
  | SSchedule _ _ | SPolicy _ => true
  end.

Definition all_have_is_due (d : list (string * ScheduleEntry)) : bool :=
  forallb (fun kv => has_is_due (snd kv)) d.

(** Whatever [send_task] raises is an [Exception]: a failure of the
    dispatch, not a signal to leave the program. *)
Definition catchable (env : Env) : Prop :=
  forall k n a kw o x,
    send_task env k n a kw o = SendRaises x -> is_Exception x = true.

Definition visiting (ks : list string) (s0 : State) (pos : nat) (s' : State) : Prop :=
  max_interval s' = max_interval s0
  /\ settled ks (data s')
  /\ all_have_is_due (data s') = true
  /\ exists evs,
       trace s' = trace s0 ++ evs
       /\ remaining_times s' = remaining_times s0 ++ filter true_value (observed evs)
       /\ List.length (observed evs) = pos.

(** The events of the [tick] run in [s], and the remaining times that
    [is_due] reported during it. *)
Definition tick_events (env : Env) (s : State) : list event :=
  skipn (List.length (trace s)) (trace (snd (tick env s))).

Definition reported (env : Env) (s : State) : list Z :=
  observed (tick_events env s).

(** A task that is to run every 0 seconds: it is due, and the time that
    remains is 0. *)
Definition eager_state : State :=
  example_state [("a", example_entry "a" (SSchedule 0 None) 900)].

(** Two due tasks, the first stored under a key that is not its name. *)
Definition renamed_pair_state : State :=
  example_state [("x", example_entry "tasks.x" (SSchedule 60 None) 900);
                 ("y", example_entry "y" (SSchedule 60 None) 900)].

(** The same world with another transport. *)
Definition with_transport (env : Env)
    (transport : nat -> string -> pyval -> pyval -> pyval -> send_result) : Env :=
  mkEnv (now env) transport (schedule_is_due env)
        (CELERYBEAT_MAX_LOOP_INTERVAL env) (stop_requested env) (sleep_raises env).

(** The calls made on the entries: of [is_due] and of [send_task]. *)
Definition is_call (ev : event) : bool :=
  match ev with
  | EvIsDue _ _ _ | EvSend _ _ _ _ => true
  | _ => false
  end.

Definition calls (tr : list event) : list event := filter is_call tr.

(** Two states that differ at most in what was logged and printed. *)
Definition alike (s1 s2 : State) : Prop :=
  data s1 = data s2
  /\ max_interval s1 = max_interval s2
  /\ remaining_times s1 = remaining_times s2
  /\ conf_schedule s1 = conf_schedule s2
  /\ clock_reads s1 = clock_reads s2
  /\ sends s1 = sends s2
  /\ calls (trace s1) = calls (trace s2).

(** How often [is_due] answered that the entry is due, and how often
    [send_task] was called. *)
Definition due_answers (tr : list event) : nat :=
  List.length (filter (fun ev => match ev with
                                 | EvIsDue _ true _ => true
                                 | _ => false
                                 end) tr).

Definition send_calls (tr : list event) : nat :=
  List.length (filter (fun ev => match ev with
                                 | EvSend _ _ _ _ => true
                                 | _ => false
                                 end) tr).

(** A transport that never fails. *)
Definition working_transport : nat -> string -> pyval -> pyval -> pyval -> send_result :=
  fun _ _ _ _ _ => Sent "task-id".

(** Two tasks, both due; in [example_env] the dispatch of the first one
    fails. *)
Definition both_due_state : State :=
  example_state [("a", example_entry "a" (SSchedule 60 None) 900);
                 ("b", example_entry "b" (SSchedule 60 None) 900)].

(** * Vocabulary of the further properties *)

(** Opening and closing of the transport connection. *)
Definition is_connection (ev : event) : bool :=
  match ev with
  | EvConnect | EvClose => true
  | _ => false
  end.

Definition no_connection (evs : list event) : Prop :=
  forallb (fun ev => negb (is_connection ev)) evs = true.

(** Every entry is stored under its own name, and no key occurs twice. *)
Definition own_keyed (d : list (string * ScheduleEntry)) : Prop :=
  NoDup (keys d) /\ Forall (fun kv => name (snd kv) = fst kv) d.

(** What a tick may have made of the mapping [d0]: the same keys, and
    under each key the entry that was there or that entry advanced. *)
Definition superseded_once (d0 d : list (string * ScheduleEntry)) : Prop :=
  keys d = keys d0
  /\ forall k e,
       dict_get k d0 = Some e ->
       dict_get k d = Some e \/ exists t, dict_get k d = Some (advanced e t).

(** The error, if any, that the configuration entry [c] makes
    [dict_to_entries] end with: a missing ["schedule"], an int too large
    for a timedelta, then a keyword the entry constructor does not take
    or a missing ["name"]. *)
Definition entry_error (c : ConfEntry) : option exn :=
  match c_schedule c with
  | None => Some (KeyError "schedule")
  | Some sc =>
      match maybe_schedule sc (c_relative c) with
      | Raise x => Some x
      | Ret _ =>
          match c_unknown c, c_name c with
          | [], Some _ => None
          | _, _ => Some TypeError
          end
      end
  end.

(** The error of the first entry that has one. *)
Fixpoint first_error (items : list (string * ConfEntry)) : option exn :=
  match items with
  | [] => None
  | (_, c) :: rest =>
      match entry_error c with
      | Some x => Some x
      | None => first_error rest
      end
  end.

(** The configuration entry as [dict_to_entries] leaves it: without
    ["relative"], and with the schedule that [maybe_schedule] made. *)
Definition convert_entry (c : ConfEntry) : ConfEntry :=
  match c_schedule c with
  | Some sc =>
      match maybe_schedule sc (c_relative c) with
      | Ret sc' => put_schedule sc' (pop_relative c)
      | Raise _ => pop_relative c
      end
  | None => pop_relative c
  end.

Definition convert_item (kc : string * ConfEntry) : string * ConfEntry :=
  (fst kc, convert_entry (snd kc)).

(** The entry [kv] is the one built from the configuration item [kc]:
    stored under the same key, with the configured name and schedule,
    the configured or default arguments, run count and last run. *)
Definition built_from (kv : string * ScheduleEntry) (kc : string * ConfEntry) : Prop :=
  fst kv = fst kc
  /\ c_name (snd kc) = Some (name (snd kv))
  /\ c_schedule (snd kc) = Some (schedule (snd kv))
  /\ args (snd kv) = match c_args (snd kc) with Some a => a | None => PTuple [] end
  /\ kwargs (snd kv) = match c_kwargs (snd kc) with Some a => a | None => PDict [] end
  /\ options (snd kv) = match c_options (snd kc) with Some a => a | None => PDict [] end
  /\ total_run_count (snd kv)
     = match c_total_run_count (snd kc) with Some n => n | None => 0 end
  /\ (forall t, c_last_run_at (snd kc) = Some t -> last_run_at (snd kv) = t).

(** Every sleep recorded in the trace lasted at most [m]. *)
Definition sleeps_within (m : Z) (tr : list event) : Prop :=
  Forall (fun ev => match ev with
                    | EvSleep interval => interval <= m
                    | _ => True
                    end) tr.

(** The events that leave no mark but in the log. *)
Definition is_quiet (ev : event) : bool :=
  match ev with
  | EvLog _ _ | EvProcessTitle _ => true
  | _ => false
  end.

(** What [start] keeps between its steps, relative to the process [p] it
    was called in: the shutdown flag unless another thread sets it, the
    number of sleeps unless it sleeps, and a trace that only grows. *)
Definition prelude_inv (p q : Process) : Prop :=
  _shutdown (service q) = _shutdown (service p)
  /\ sleeps q = sleeps p
  /\ shutdown_tests q = shutdown_tests p
  /\ cs_max_interval (service q) = cs_max_interval (service p)
  /\ exists evs,
       trace (world q) = trace (world p) ++ evs
       /\ forallb is_quiet evs = true.

(** What the loop of [start] keeps once the scheduler is made with
    maximum [m]. *)
Definition running_inv (m : Z) (p : Process) : Prop :=
  _scheduler (service p) = true
  /\ max_interval (world p) = m
  /\ sleeps_within m (trace (world p)).

(** The example service after [start()] has run until the third test of
    the shutdown flag found it set. *)
Definition example_stopped : Process :=
  Eval vm_compute in
    match start example_env 3 false example_process with
    | Some (_, p) => p
    | None => example_process
    end.

(** ** Calls on the entries *)

(** What the schedule of [e] answers when the clock gives its [k]-th
    reading; [None] when the schedule has no [is_due]. *)
Definition answer_at (env : Env) (e : ScheduleEntry) (k : nat) : option (bool * Z) :=
  match schedule e with
  | SInt _ | STimedelta _ => None
  | SSchedule run_every relative =>
      Some (schedule_is_due env run_every relative (now env k) (last_run_at e))
  | SPolicy p => Some (p (now env k) (last_run_at e))
  end.

(** [served env cs es]: the calls [cs] are those of a scan that serves
    the entries [es] one after the other: [is_due] is called once on each
    entry, with the entry's own [last_run_at], and an answer that the
    entry is due is followed at once by the call of [send_task] with the
    entry's name, args, kwargs and options. *)
Inductive served (env : Env) : list event -> list ScheduleEntry -> Prop :=
| served_none : served env [] []
| served_idle (e : ScheduleEntry) (k : nat) (rem : Z)
    (cs : list event) (es : list ScheduleEntry) :
    answer_at env e k = Some (false, rem) ->
    served env cs es ->
    served env (EvIsDue (name e) false rem :: cs) (e :: es)
| served_due (e : ScheduleEntry) (k : nat) (rem : Z)
    (cs : list event) (es : list ScheduleEntry) :
    answer_at env e k = Some (true, rem) ->
    served env cs es ->
    served env (EvIsDue (name e) true rem
                :: EvSend (name e) (args e) (kwargs e) (options e) :: cs)
           (e :: es).

(** * ScheduleEntry *)

Lemma next_eq (env : Env) (e : ScheduleEntry) (s : State) :
  next env e s =
  (Ret (mkEntry (name e) (schedule e) (args e) (kwargs e) (options e)
                (now env (clock_reads s)) (total_run_count e + 1)),
   set_clock_reads (S (clock_reads s)) s).
Proof.
  unfold next, ScheduleEntry_init, datetime_now, bind, ret.
  destruct (total_run_count e + 1 =? 0) eqn:E; [|reflexivity].
  apply Z.eqb_eq in E. rewrite E. reflexivity.
Qed.

(** C8, as stated, fails: an entry whose [last_run_at] lies ahead of the
    wall clock (here 5000 against a clock that reads 1000) is advanced to
    an entry with an earlier [last_run_at]. *)
Lemma next_last_run_at_can_decrease :
  exists e' s',
    next example_env (example_entry "a" (SSchedule 60 None) 5000)
         (example_state []) = (Ret e', s')
    /\ ~ (last_run_at e' >= last_run_at (example_entry "a" (SSchedule 60 None) 5000)).
Proof.
  eexists. eexists. split.
  - rewrite next_eq. reflexivity.
  - cbn. lia.
Qed.

(** C8 (amended): [e.next()] returns a new entry with the same name,
    schedule, args, kwargs and options, with [total_run_count] one more
    than that of [e] and [last_run_at] equal to the reading of the clock at the
    call, which is at least [e.last_run_at] whenever [e.last_run_at] is
    not ahead of the clock; the call reads the clock once and changes
    nothing else: the stored entries, [e] among them, stay as they are. *)
Theorem next_advances_entry (env : Env) (e : ScheduleEntry) (s : State) :
  exists e',
    next env e s = (Ret e', set_clock_reads (S (clock_reads s)) s)
    /\ name e' = name e
    /\ schedule e' = schedule e
    /\ args e' = args e
    /\ kwargs e' = kwargs e
    /\ options e' = options e
    /\ total_run_count e' = total_run_count e + 1
    /\ last_run_at e' = now env (clock_reads s)
    /\ (last_run_at e <= now env (clock_reads s) -> last_run_at e' >= last_run_at e)
    /\ data (snd (next env e s)) = data s.
Proof.
  eexists. rewrite next_eq. cbn.
  repeat split; try reflexivity.
  intro H. apply Z.le_ge. exact H.
Qed.

(** * ClockService.sync *)

Lemma sync_sync (c : ClockService) : sync (sync c) = sync c.
Proof. reflexivity. Qed.

(** C9: [sync()] is idempotent: after the first call, any number of
    further calls leaves the stopped flag and every other attribute of
    the service as the first call left them. *)
Theorem sync_idempotent (c : ClockService) (n : nat) :
  Nat.iter n sync (sync c) = sync c
  /\ _stopped (Nat.iter n sync (sync c)) = true.
Proof.
  induction n as [|n [IH _]].
  - split; reflexivity.
  - change (Nat.iter (S n) sync (sync c))
      with (sync (Nat.iter n sync (sync c))).
    rewrite IH. split; reflexivity.
Qed.

(** * Scheduler: one entry *)

Lemma reserve_eq (env : Env) (e : ScheduleEntry) (s : State) :
  reserve env e s = (Ret (advanced e (now env (clock_reads s))), reserved env e s).
Proof.
  unfold reserve, bind. rewrite next_eq. reflexivity.
Qed.

Lemma apply_async_eq (env : Env) (e : ScheduleEntry) (s : State) :
  apply_async env e s =
  match send_task env (sends s) (name e) (args e) (kwargs e) (options e) with
  | Sent task_id => (Ret task_id, dispatched env e s)
  | SendRaises x =>
      (Raise (if is_Exception x then SchedulingError (name e) x else x),
       dispatched env e s)
  end.
Proof.
  unfold apply_async, bind. rewrite reserve_eq.
  unfold modify, try_except, try_except_else, call_send_task, dispatched.
  cbn.
  destruct (send_task env (sends s) (name e) (args e) (kwargs e) (options e))
    as [task_id|x]; [reflexivity|].
  destruct (is_Exception x); reflexivity.
Qed.

Lemma is_due_eq (env : Env) (e : ScheduleEntry) (s : State) :
  is_due env e s =
  match due_now env e s with
  | Some r => (Ret r, asked e r s)
  | None => (Raise AttributeError, s)
  end.
Proof.
  unfold is_due, due_now. destruct (schedule e); reflexivity.
Qed.

Lemma maybe_due_eq (env : Env) (e : ScheduleEntry) (s : State) :
  maybe_due env e s =
  match due_now env e s with
  | None => (Raise AttributeError, s)
  | Some (false, rem) => (Ret rem, asked e (false, rem) s)
  | Some (true, rem) =>
      let s1 := emit (EvLog LDebug (name e)) (asked e (true, rem) s) in
      match send_task env (sends s1) (name e) (args e) (kwargs e) (options e) with
      | SendRaises x =>
          if is_Exception x then (Ret rem, sent_state env e s1)
          else (Raise x, dispatched env e s1)
      | Sent _ => (Ret rem, sent_state env e s1)
      end
  end.
Proof.
  unfold maybe_due, bind. rewrite is_due_eq.
  destruct (due_now env e s) as [[[|] rem]|]; try reflexivity.
  unfold log, modify, try_except_else. cbn -[apply_async].
  rewrite apply_async_eq. unfold sent_state. cbn.
  destruct (send_task env (sends s) (name e) (args e) (kwargs e) (options e))
    as [task_id|x]; [reflexivity|].
  destruct (is_Exception x) eqn:E; cbn; [reflexivity|].
  destruct x; try discriminate E; reflexivity.
Qed.

Section DictFacts.

Variable V : Type.

Lemma dict_get_set_same (k : string) (v : V) (d : list (string * V)) :
  dict_get k (dict_set k v d) = Some v.
Proof.
  induction d as [|[k' v'] d IH]; cbn.
  - rewrite String.eqb_refl. reflexivity.
  - destruct (String.eqb k k') eqn:E; cbn; rewrite E; [reflexivity|exact IH].
Qed.

Lemma keys_dict_set (k : string) (v : V) (d : list (string * V)) :
  keys (dict_set k v d) = if has_key k d then keys d else keys d ++ [k].
Proof.
  unfold has_key, keys.
  induction d as [|[k' v'] d IH]; cbn; [reflexivity|].
  destruct (String.eqb k k') eqn:E; cbn; [reflexivity|].
  rewrite IH. destruct (existsb (String.eqb k) (map fst d)); reflexivity.
Qed.

Lemma length_dict_set (k : string) (v : V) (d : list (string * V)) :
  List.length (dict_set k v d) =
  if has_key k d then List.length d else S (List.length d).
Proof.
  rewrite <- (length_map fst (dict_set k v d)), <- (length_map fst d).
  fold (keys (dict_set k v d)). rewrite keys_dict_set. fold (keys d).
  destruct (has_key k d); [reflexivity|].
  rewrite length_app. cbn. lia.
Qed.

End DictFacts.

(** C2: when an entry is due and its dispatch raises, the mapping holds,
    under the entry's name, the advanced entry: [total_run_count] one
    more, [last_run_at] the reading of the clock at the reservation.
    That is the mapping [reserve] left before [send_task] was called:
    the failed call changes no entry. *)
Theorem failed_dispatch_keeps_reservation
    (env : Env) (entry : ScheduleEntry) (s : State) (rem : Z) (exc : exn)
    (Hdue : fst (is_due env entry s) = Ret (true, rem))
    (Hfail : send_task env (sends s) (name entry) (args entry) (kwargs entry)
                       (options entry) = SendRaises exc) :
  let s' := snd (maybe_due env entry s) in
  exists e',
    dict_get (name entry) (data s') = Some e'
    /\ total_run_count e' = total_run_count entry + 1
    /\ last_run_at e' = now env (S (clock_reads s))
    /\ name e' = name entry
    /\ data s' = data (snd (reserve env entry (snd (is_due env entry s))))
    /\ snd (apply_async env entry s) = dispatched env entry s
    /\ dict_get (name entry) (data (dispatched env entry s))
       = Some (advanced entry (now env (clock_reads s))).
Proof.
  intro s'. subst s'.
  exists (advanced entry (now env (S (clock_reads s)))).
  rewrite is_due_eq in Hdue.
  rewrite maybe_due_eq, is_due_eq, reserve_eq, apply_async_eq, Hfail.
  destruct (due_now env entry s) as [r|]; [|discriminate Hdue].
  cbn in Hdue. injection Hdue as ->.
  cbn [sends emit asked set_clock_reads].
  rewrite Hfail. unfold sent_state. cbn [sends emit asked set_clock_reads].
  rewrite Hfail.
  destruct (is_Exception exc); cbn;
    rewrite !dict_get_set_same; repeat split; reflexivity.
Qed.

Lemma failed_dispatch_keeps_reservation_witness :
  let entry := example_entry "a" (SSchedule 60 None) 900 in
  let s' := snd (maybe_due example_env entry (example_state [("a", entry)])) in
  exists e',
    dict_get "a" (data s') = Some e'
    /\ total_run_count e' = 0 + 1
    /\ last_run_at e' = 1001
    /\ name e' = "a"
    /\ data s' = data (snd (reserve example_env entry
                              (snd (is_due example_env entry
                                           (example_state [("a", entry)])))))
    /\ snd (apply_async example_env entry (example_state [("a", entry)]))
       = dispatched example_env entry (example_state [("a", entry)])
    /\ dict_get "a" (data (dispatched example_env entry
                                      (example_state [("a", entry)])))
       = Some (advanced entry 1000).
Proof.
  exact (failed_dispatch_keeps_reservation example_env
           (example_entry "a" (SSchedule 60 None) 900)
           (example_state [("a", example_entry "a" (SSchedule 60 None) 900)])
           (rem := 60) (exc := OtherError "broker unreachable")
           eq_refl eq_refl).
Defined.

(** * Scheduler construction *)

Section Commutes.

Variable F : State -> State.

Lemma commutes_ret {A} (a : A) : commutes F (ret a).
Proof. intro s. reflexivity. Qed.

Lemma commutes_raise {A} (e : exn) : commutes F (@raise State A e).
Proof. intro s. reflexivity. Qed.

Lemma commutes_lift_outcome {A} (r : outcome A) : commutes F (lift_outcome r).
Proof. intro s. reflexivity. Qed.

Lemma commutes_bind {A B} (m : M State A) (k : A -> M State B) :
  commutes F m -> (forall a, commutes F (k a)) -> commutes F (bind m k).
Proof.
  intros Hm Hk s. unfold bind. rewrite Hm.
  destruct (m s) as [[a|e] s']; cbn [fst snd]; [apply Hk|reflexivity].
Qed.

Lemma commutes_modify (f : State -> State) :
  (forall s, f (F s) = F (f s)) -> commutes F (modify f).
Proof. intros Hf s. unfold modify. rewrite Hf. reflexivity. Qed.

Lemma commutes_gets {A} (g : State -> A) :
  (forall s, g (F s) = g s) -> commutes F (gets g).
Proof. intros Hg s. unfold gets. rewrite Hg. reflexivity. Qed.

End Commutes.

Lemma commutes_datetime_now (env : Env) (d : list (string * ScheduleEntry)) (m : Z) :
  commutes (assigned d m) (datetime_now env).
Proof. intro s. reflexivity. Qed.

Lemma commutes_Entry_of_kwargs (env : Env) (c : ConfEntry)
    (d : list (string * ScheduleEntry)) (m : Z) :
  commutes (assigned d m) (Entry_of_kwargs env c).
Proof.
  unfold Entry_of_kwargs.
  destruct (c_unknown c), (c_relative c), (c_name c), (c_schedule c);
    try apply commutes_raise.
  unfold ScheduleEntry_init. apply commutes_bind.
  - destruct (c_last_run_at c);
      [apply commutes_ret|apply commutes_datetime_now].
  - intro a. apply commutes_ret.
Qed.

(** Building the entries neither reads nor writes [data] and
    [max_interval]. *)
Lemma commutes_dict_to_entries_loop (env : Env)
    (d : list (string * ScheduleEntry)) (m : Z)
    (items : list (string * ConfEntry)) :
  forall acc, commutes (assigned d m) (dict_to_entries_loop env items acc).
Proof.
  induction items as [|[nm c] items IH]; intro acc; cbn [dict_to_entries_loop].
  - apply commutes_ret.
  - apply commutes_bind; [apply commutes_modify; reflexivity|intros _].
    apply commutes_bind.
    { destruct (c_schedule (pop_relative c));
        [apply commutes_lift_outcome|apply commutes_raise]. }
    intro sc.
    apply commutes_bind; [apply commutes_modify; reflexivity|intros _].
    apply commutes_bind; [apply commutes_Entry_of_kwargs|intro e; apply IH].
Qed.

Lemma commutes_dict_to_entries (env : Env)
    (d : list (string * ScheduleEntry)) (m : Z) :
  commutes (assigned d m) (dict_to_entries env).
Proof.
  unfold dict_to_entries. apply commutes_bind.
  - apply commutes_gets. reflexivity.
  - intro items. apply commutes_dict_to_entries_loop.
Qed.

Lemma Scheduler_init_eq (env : Env)
    (arg : option (list (string * ScheduleEntry))) (mi : option Z) (s : State) :
  Scheduler_init env arg mi s =
  match dict_to_entries env s with
  | (Ret entries, s1) =>
      (Ret tt, set_data entries (set_max_interval (max_interval_or_default env mi) s1))
  | (Raise e, s1) =>
      (Raise e, assigned (match arg with Some d => d | None => [] end)
                         (max_interval_or_default env mi) s1)
  end.
Proof.
  unfold Scheduler_init, setup_schedule, cleanup, bind, modify, ret.
  fold (max_interval_or_default env mi).
  change (set_max_interval ?m (set_data ?d s)) with (assigned d m s).
  rewrite commutes_dict_to_entries.
  destruct (dict_to_entries env s) as [[entries|e] s1]; reflexivity.
Qed.

(** C10: the [schedule] argument of the constructor has no effect on
    the entries: whatever is passed, the constructor ends the same way
    (it returns, or raises the same exception), and when it returns the
    scheduler is in the same state, its mapping being the one
    [dict_to_entries] builds from [conf.CELERYBEAT_SCHEDULE]. *)
Theorem constructor_ignores_schedule_argument (env : Env)
    (arg1 arg2 : option (list (string * ScheduleEntry))) (mi : option Z) (s : State) :
  fst (Scheduler_init env arg1 mi s) = fst (Scheduler_init env arg2 mi s)
  /\ (forall entries s1,
        dict_to_entries env s = (Ret entries, s1) ->
        Scheduler_init env arg1 mi s = Scheduler_init env arg2 mi s
        /\ fst (Scheduler_init env arg1 mi s) = Ret tt
        /\ data (snd (Scheduler_init env arg1 mi s)) = entries)
  /\ (forall e s1,
        dict_to_entries env s = (Raise e, s1) ->
        fst (Scheduler_init env arg1 mi s) = Raise e).
Proof.
  rewrite !Scheduler_init_eq.
  destruct (dict_to_entries env s) as [[entries|e] s1]; cbn [fst snd].
  - split; [reflexivity|]. split.
    + intros entries' s1' H. injection H as <- <-. repeat split; reflexivity.
    + intros e s1' H. discriminate H.
  - split; [reflexivity|]. split.
    + intros entries' s1' H. discriminate H.
    + intros e' s1' H. injection H as <- <-. reflexivity.
Qed.

(** * The loop of tick *)

(** Induction over [for_itervalues].  [I pos s] is to hold when the
    iterator stands before position [pos]; a turn of the body either
    re-establishes it for the next position or raises under [R]. *)
Lemma for_itervalues_rule (used : nat) (body : ScheduleEntry -> M State unit)
    (I : nat -> State -> Prop) (R : exn -> State -> Prop)
    (Hbody : forall pos k e s,
        I pos s -> List.length (data s) = used ->
        nth_error (data s) pos = Some (k, e) ->
        match body e s with
        | (Ret _, s') => I (S pos) s'
        | (Raise x, s') => R x s'
        end) :
  forall left pos s,
    I pos s -> (pos + left = used)%nat ->
    match for_itervalues left pos used body s with
    | (Ret _, s') => I used s' /\ List.length (data s') = used
    | (Raise x, s') =>
        (x = RuntimeError /\ List.length (data s') <> used
         /\ exists p, (p <= used)%nat /\ I p s')
        \/ R x s'
    end.
Proof.
  induction left as [|left IH]; intros pos s HI Hpos.
  - cbn. destruct (Nat.eqb_spec (List.length (data s)) used) as [E|E]; cbn.
    + replace used with pos by lia. split; [exact HI|lia].
    + left. split; [reflexivity|]. split; [exact E|].
      exists pos. split; [lia|exact HI].
  - cbn [for_itervalues].
    destruct (Nat.eqb_spec (List.length (data s)) used) as [E|E]; cbn [negb].
    + destruct (nth_error (data s) pos) as [[k e]|] eqn:N.
      * specialize (Hbody pos k e s HI E N). unfold bind.
        destruct (body e s) as [[[]|x] s1].
        -- apply IH; [exact Hbody|lia].
        -- right. exact Hbody.
      * apply nth_error_None in N. lia.
    + left. split; [reflexivity|]. split; [exact E|].
      exists pos. split; [lia|exact HI].
Qed.

(** The same for a property that does not depend on the position. *)
Lemma for_itervalues_preserves (body : ScheduleEntry -> M State unit)
    (I : State -> Prop)
    (Hbody : forall k e s, I s -> In (k, e) (data s) -> I (snd (body e s))) :
  forall left pos s,
    I s -> (pos + left = List.length (data s))%nat ->
    I (snd (for_itervalues left pos (List.length (data s)) body s)).
Proof.
  intros left pos s HI Hpos.
  pose proof (@for_itervalues_rule (List.length (data s)) body
                (fun _ => I) (fun _ => I)) as H.
  specialize (H (fun pos k e s HI _ N =>
                   let r := Hbody k e s HI (nth_error_In _ _ N) in
                   match body e s as b
                         return I (snd b) ->
                                match b with
                                | (Ret _, s') => I s'
                                | (Raise _, s') => I s'
                                end
                   with
                   | (Ret _, _) => fun h => h
                   | (Raise _, _) => fun h => h
                   end r)
                left pos s HI Hpos).
  destruct (for_itervalues left pos (List.length (data s)) body s) as [[[]|x] s'];
    cbn [snd].
  - apply H.
  - destruct H as [(_ & _ & p & _ & H)|H]; exact H.
Qed.

(** [min] of a list that ends with the ceiling never raises. *)
Lemma py_min_snoc (l : list Z) (m : Z) :
  exists v, py_min (l ++ [m]) = Ret v.
Proof.
  destruct l as [|x l]; cbn; eexists; reflexivity.
Qed.

Lemma fold_left_min_le (l : list Z) (x : Z) :
  fold_left Z.min l x <= x /\ Forall (fun y => fold_left Z.min l x <= y) l.
Proof.
  revert x. induction l as [|y l IH]; intro x; cbn.
  - split; [lia|constructor].
  - destruct (IH (Z.min x y)) as [H1 H2]. split; [lia|].
    constructor; [lia|exact H2].
Qed.

Lemma fold_left_min_In (l : list Z) (x : Z) :
  fold_left Z.min l x = x \/ In (fold_left Z.min l x) l.
Proof.
  revert x. induction l as [|y l IH]; intro x; cbn.
  - left. reflexivity.
  - destruct (IH (Z.min x y)) as [H|H].
    + rewrite H. destruct (Z.min_spec x y) as [[_ E]|[_ E]]; rewrite E; auto.
    + right. right. exact H.
Qed.

(** What [py_min] returns is a lower bound and a member of the list. *)
Lemma py_min_spec (l : list Z) (v : Z) :
  py_min l = Ret v -> In v l /\ Forall (fun y => v <= y) l.
Proof.
  destruct l as [|x l]; cbn; [discriminate|].
  intro H. injection H as <-.
  destruct (fold_left_min_le l x) as [H1 H2].
  split.
  - destruct (fold_left_min_In l x) as [E|E]; [left; symmetry; exact E|right; exact E].
  - constructor; [exact H1|exact H2].
Qed.

Lemma tick_eq (env : Env) (s : State) :
  tick env s =
  match for_itervalues (List.length (data s)) 0 (List.length (data s))
                       (tick_body env) (tick_started s) with
  | (Ret _, s1) => tick_finish s1
  | (Raise x, s1) =>
      if is_RuntimeError x then tick_finish s1 else (Raise x, emit EvClose s1)
  end.
Proof.
  unfold tick, bind, modify, establish_connection, modify, try_finally,
    try_except, try_except_else, gets, connection_close, modify, ret,
    lift_outcome, tick_finish, tick_started.
  cbn [data set_remaining_times emit].
  destruct (for_itervalues _ _ _ _ _) as [[[]|x] s1].
  - reflexivity.
  - destruct (is_RuntimeError x); reflexivity.
Qed.

Lemma tick_body_eq (env : Env) (e : ScheduleEntry) (s : State) :
  tick_body env e s =
  match maybe_due env e s with
  | (Ret rem, s1) => (Ret tt, collect rem s1)
  | (Raise x, s1) => (Raise x, s1)
  end.
Proof.
  unfold tick_body, bind, collect.
  destruct (maybe_due env e s) as [[rem|x] s1]; [|reflexivity].
  destruct (rem =? 0); reflexivity.
Qed.

(** ** One turn of the loop, attribute by attribute *)

Ltac turn_cases env e s :=
  rewrite (tick_body_eq env e s), (maybe_due_eq env e s);
  unfold body_collected, body_events, body_data, body_outcome, sent_state, collect;
  destruct (due_now env e s) as [[[|] ?rem]|];
  cbn [sends emit asked set_clock_reads fst snd];
  [ destruct (send_task env (sends s) (name e) (args e) (kwargs e) (options e))
      as [?task_id|?x];
    [ | destruct (is_Exception _) ] | | ];
  try destruct (_ =? 0); cbn.

Lemma tick_body_outcome (env : Env) (e : ScheduleEntry) (s : State) :
  fst (tick_body env e s) = body_outcome env e s.
Proof. turn_cases env e s; reflexivity. Qed.

Lemma tick_body_trace (env : Env) (e : ScheduleEntry) (s : State) :
  trace (snd (tick_body env e s)) = trace s ++ body_events env e s.
Proof.
  turn_cases env e s; rewrite <- ?app_assoc; cbn; rewrite ?app_nil_r; reflexivity.
Qed.

Lemma tick_body_data (env : Env) (e : ScheduleEntry) (s : State) :
  data (snd (tick_body env e s)) = body_data env e s.
Proof. turn_cases env e s; reflexivity. Qed.

Lemma tick_body_max_interval (env : Env) (e : ScheduleEntry) (s : State) :
  max_interval (snd (tick_body env e s)) = max_interval s.
Proof. turn_cases env e s; reflexivity. Qed.

Lemma tick_body_remaining_times (env : Env) (e : ScheduleEntry) (s : State) :
  remaining_times (snd (tick_body env e s))
  = remaining_times s ++ body_collected env e s.
Proof. turn_cases env e s; rewrite ?app_nil_r; reflexivity. Qed.

Lemma tick_body_conf_schedule (env : Env) (e : ScheduleEntry) (s : State) :
  conf_schedule (snd (tick_body env e s)) = conf_schedule s.
Proof. turn_cases env e s; reflexivity. Qed.

Lemma tick_body_clock_reads (env : Env) (e : ScheduleEntry) (s : State) :
  clock_reads (snd (tick_body env e s))
  = match due_now env e s with
    | None => clock_reads s
    | Some (false, _) => S (clock_reads s)
    | Some (true, _) => S (S (clock_reads s))
    end.
Proof. turn_cases env e s; reflexivity. Qed.

Lemma tick_body_sends (env : Env) (e : ScheduleEntry) (s : State) :
  sends (snd (tick_body env e s))
  = match due_now env e s with
    | Some (true, _) => S (sends s)
    | _ => sends s
    end.
Proof. turn_cases env e s; reflexivity. Qed.

(** * Properties kept by every step *)

Section Preserves.

Variable St : Type.

Variable I : St -> Prop.

Lemma preserves_ret {A} (a : A) : preserves I (ret a).
Proof. intros s H. exact H. Qed.

Lemma preserves_raise {A} (e : exn) : preserves I (@raise St A e).
Proof. intros s H. exact H. Qed.

Lemma preserves_get : preserves I get.
Proof. intros s H. exact H. Qed.

Lemma preserves_gets {A} (g : St -> A) : preserves I (gets g).
Proof. intros s H. exact H. Qed.

Lemma preserves_modify (f : St -> St) :
  (forall s, I s -> I (f s)) -> preserves I (modify f).
Proof. intros Hf s H. apply Hf. exact H. Qed.

Lemma preserves_bind {A B} (m : M St A) (k : A -> M St B) :
  preserves I m -> (forall a, preserves I (k a)) -> preserves I (bind m k).
Proof.
  intros Hm Hk s H. unfold bind. specialize (Hm s H).
  destruct (m s) as [[a|e] s']; cbn [snd] in *; [apply Hk|]; exact Hm.
Qed.

End Preserves.

Lemma preserves_lift_outcome {A} (I : State -> Prop) (r : outcome A) :
  preserves I (lift_outcome r).
Proof. intros s H. exact H. Qed.

Lemma preserves_lift {A} (I : Process -> Prop) (m : M State A) :
  (forall p, I p -> I (on_world (fun _ => snd (m (world p))) p)) ->
  preserves I (lift m).
Proof.
  intros Hm p H. unfold lift. specialize (Hm p H).
  destruct (m (world p)) as [r w]. exact Hm.
Qed.

Lemma lift_eq {A} (m : M State A) (p : Process) :
  lift m p = (fst (m (world p)), on_world (fun _ => snd (m (world p))) p).
Proof. unfold lift. destruct (m (world p)); reflexivity. Qed.

(** ** Calls of sync *)

Lemma count_sync_app (a b : list event) :
  count_sync (a ++ b) = (count_sync a + count_sync b)%nat.
Proof. unfold count_sync. rewrite filter_app, length_app. reflexivity. Qed.

Lemma body_events_count_sync (env : Env) (e : ScheduleEntry) (s : State) :
  count_sync (body_events env e s) = O.
Proof.
  unfold body_events.
  destruct (due_now env e s) as [[[|] rem]|]; try reflexivity.
  destruct (send_task env (sends s) (name e) (args e) (kwargs e) (options e))
    as [task_id|x]; [reflexivity|].
  destruct (is_Exception x); reflexivity.
Qed.

Lemma tick_count_sync (env : Env) (s : State) :
  count_sync (trace (snd (tick env s))) = count_sync (trace s).
Proof.
  rewrite tick_eq.
  pose proof (@for_itervalues_preserves (tick_body env)
                (fun s' => count_sync (trace s') = count_sync (trace s))) as H.
  specialize (H (fun k e s' HI _ =>
                   eq_trans
                     (eq_trans (f_equal count_sync (tick_body_trace env e s'))
                               (count_sync_app _ _))
                     (eq_trans (f_equal (Nat.add _) (body_events_count_sync env e s'))
                               (eq_trans (Nat.add_0_r _) HI)))
                (List.length (data s)) O (tick_started s)).
  cbn [tick_started data emit set_remaining_times] in H.
  assert (H0 : count_sync (trace (tick_started s)) = count_sync (trace s)).
  { unfold tick_started. cbn [trace emit set_remaining_times].
    rewrite count_sync_app. cbn. lia. }
  specialize (H H0 eq_refl).
  destruct (for_itervalues _ _ _ _ _) as [[[]|x] s1]; cbn [snd] in H.
  - unfold tick_finish. cbn [snd trace emit].
    rewrite count_sync_app, H. cbn. lia.
  - unfold tick_finish. destruct (is_RuntimeError x); cbn [snd trace emit];
      rewrite count_sync_app, H; cbn; lia.
Qed.

Lemma Entry_of_kwargs_trace (env : Env) (c : ConfEntry) (tr : list event) :
  preserves (fun s => trace s = tr) (Entry_of_kwargs env c).
Proof.
  unfold Entry_of_kwargs.
  destruct (c_unknown c), (c_relative c), (c_name c), (c_schedule c);
    try apply preserves_raise.
  unfold ScheduleEntry_init. apply preserves_bind.
  - destruct (c_last_run_at c); [apply preserves_ret|].
    intros w H. exact H.
  - intro a. apply preserves_ret.
Qed.

Lemma dict_to_entries_loop_trace (env : Env) (tr : list event)
    (items : list (string * ConfEntry)) :
  forall acc, preserves (fun s => trace s = tr) (dict_to_entries_loop env items acc).
Proof.
  induction items as [|[nm c] items IH]; intro acc; cbn [dict_to_entries_loop].
  - apply preserves_ret.
  - apply preserves_bind; [apply preserves_modify; intros s H; exact H|intros _].
    apply preserves_bind.
    { destruct (c_schedule (pop_relative c));
        [apply preserves_lift_outcome|apply preserves_raise]. }
    intro sc.
    apply preserves_bind; [apply preserves_modify; intros s H; exact H|intros _].
    apply preserves_bind; [apply Entry_of_kwargs_trace|intro e; apply IH].
Qed.

Lemma Scheduler_init_trace (env : Env)
    (arg : option (list (string * ScheduleEntry))) (mi : option Z) (s : State) :
  trace (snd (Scheduler_init env arg mi s)) = trace s.
Proof.
  rewrite Scheduler_init_eq.
  pose proof (@dict_to_entries_loop_trace env (trace s) (conf_schedule s) [] s eq_refl)
    as H.
  unfold dict_to_entries, bind, gets.
  destruct (dict_to_entries_loop env (conf_schedule s) [] s) as [[entries|e] s1];
    exact H.
Qed.

(** * ClockService.start *)

Lemma scheduler_loop_inv (env : Env) (n t : nat) :
  preserves (loop_inv n t) (scheduler env).
Proof.
  unfold scheduler. apply preserves_bind; [apply preserves_get|intro p].
  destruct (_scheduler (service p)); [apply preserves_ret|].
  apply preserves_bind.
  - apply preserves_lift. intros q [H1 H2]. split; [|exact H2].
    unfold syncs in *. cbn [world on_world]. rewrite Scheduler_init_trace. exact H1.
  - intros _. apply preserves_modify. intros q H. exact H.
Qed.

Lemma time_sleep_loop_inv (env : Env) (interval : Z) (n t : nat) :
  preserves (loop_inv n t) (time_sleep env interval).
Proof.
  unfold time_sleep. apply preserves_bind; [apply preserves_get|intro p].
  apply preserves_bind; [apply preserves_modify; intros q H; exact H|intros _].
  apply preserves_bind.
  - apply preserves_modify. intros q [H1 H2]. split; [|exact H2].
    unfold syncs in *. cbn [world on_world trace emit]. rewrite count_sync_app, H1. cbn. lia.
  - intros _. destruct (sleep_raises env (sleeps p));
      [apply preserves_raise|apply preserves_ret].
Qed.

Lemma loop_body_loop_inv (env : Env) (n t : nat) :
  preserves (loop_inv n t) (loop_body env).
Proof.
  unfold loop_body.
  apply preserves_bind; [apply scheduler_loop_inv|intros _].
  apply preserves_bind.
  - apply preserves_lift. intros q [H1 H2]. split; [|exact H2].
    unfold syncs in *. cbn [world on_world]. rewrite tick_count_sync. exact H1.
  - intro interval. apply preserves_bind; [apply preserves_ret|intros _].
    apply time_sleep_loop_inv.
Qed.

(** The test of the flag never raises; it answers [True] once another
    thread has asked to stop, and it is counted. *)
Lemma shutdown_isSet_spec (env : Env) (p : Process) :
  exists b p1,
    shutdown_isSet env p = (Ret b, p1)
    /\ syncs p1 = syncs p
    /\ shutdown_tests p1 = S (shutdown_tests p)
    /\ (stop_requested env (shutdown_tests p) = true -> b = true).
Proof.
  unfold shutdown_isSet, bind, get, modify, gets, stop, bind, modify.
  cbn [shutdown_tests set_shutdown_tests].
  destruct (stop_requested env (shutdown_tests p)).
  - rewrite lift_eq. cbn [fst snd]. eexists. eexists. split; [reflexivity|].
    unfold syncs, log, modify.
    cbn [world on_world on_service trace emit snd shutdown_tests set_shutdown_tests].
    rewrite count_sync_app. cbn.
    repeat split; auto with arith.
  - cbn. eexists. eexists. split; [reflexivity|].
    repeat split. intro H. discriminate H.
Qed.

Lemma start_loop_syncs (env : Env) (fuel : nat) :
  forall p r p', start_loop env fuel p = Some (r, p') -> syncs p' = syncs p.
Proof.
  induction fuel as [|fuel IH]; intros p r p' H; cbn [start_loop] in H;
    [discriminate H|].
  destruct (shutdown_isSet_spec env p) as (b & p1 & E & Hs & _ & _).
  rewrite E in H.
  pose proof (@loop_body_loop_inv env (syncs p1) (shutdown_tests p1) p1
                (conj eq_refl eq_refl)) as [Hb _].
  destruct b.
  - injection H as <- <-. exact Hs.
  - destruct (loop_body env p1) as [[[]|x] p2]; cbn [snd] in Hb.
    + rewrite (IH _ _ _ H). congruence.
    + injection H as <- <-. congruence.
Qed.

(** The loop is left at the latest when the flag is found set. *)
Lemma start_loop_returns (env : Env) (k : nat) :
  forall p,
    stop_requested env (shutdown_tests p + k) = true ->
    exists r, start_loop env (S k) p = Some r.
Proof.
  induction k as [|k IH]; intros p Hstop.
  - destruct (shutdown_isSet_spec env p) as (b & p1 & E & _ & _ & Hb).
    rewrite Nat.add_0_r in Hstop. rewrite (Hb Hstop) in E.
    cbn [start_loop]. rewrite E. eexists. reflexivity.
  - destruct (shutdown_isSet_spec env p) as (b & p1 & E & _ & Ht & _).
    cbn [start_loop]. rewrite E.
    destruct b; [eexists; reflexivity|].
    pose proof (@loop_body_loop_inv env (syncs p1) (shutdown_tests p1) p1
                  (conj eq_refl eq_refl)) as [_ Hb].
    destruct (loop_body env p1) as [[[]|x] p2]; cbn [snd] in Hb.
    + apply IH. rewrite Hb, Ht.
      replace (S (shutdown_tests p) + k)%nat with (shutdown_tests p + S k)%nat
        by lia.
      exact Hstop.
    + eexists. reflexivity.
Qed.

Lemma start_prelude_syncs (env : Env) (embedded_process : bool) (p : Process) :
  syncs (snd (start_prelude env embedded_process p)) = syncs p.
Proof.
  assert (H : preserves (fun q => syncs q = syncs p)
                (start_prelude env embedded_process)).
  { unfold start_prelude.
    assert (L : forall lv msg,
               preserves (fun q => syncs q = syncs p) (lift (log lv msg))).
    { intros lv msg. apply preserves_lift. intros q H. unfold syncs in *.
      cbn [world on_world trace emit log modify snd]. rewrite count_sync_app, H. cbn. lia. }
    apply preserves_bind; [apply L|intros _].
    apply preserves_bind.
    { intros q H.
      exact (proj1 (@scheduler_loop_inv env (syncs p) (shutdown_tests q) q
                      (conj H eq_refl))). }
    intros _. apply preserves_bind; [apply L|intros _].
    destruct embedded_process; [|apply preserves_ret].
    apply preserves_modify. intros q H. unfold syncs in *.
    cbn [world on_world trace emit log modify snd]. rewrite count_sync_app, H. cbn. lia. }
  apply H. reflexivity.
Qed.

Lemma call_sync_eq (p : Process) :
  call_sync p = (Ret tt, on_service sync (on_world (emit EvSync) p)).
Proof. reflexivity. Qed.

Lemma syncs_call_sync (p : Process) :
  syncs (on_service sync (on_world (emit EvSync) p)) = S (syncs p).
Proof.
  unfold syncs. cbn [world on_service on_world trace emit].
  rewrite count_sync_app. cbn. lia.
Qed.

(** C7, as stated, fails: when the loop is left by an interrupt,
    [sync()] runs in the handler and again in the [finally] clause,
    twice in all. *)
Lemma start_interrupted_syncs_twice :
  sleep_raises interrupted_env 0 = Some KeyboardInterrupt
  /\ exists p',
       start interrupted_env 1 false example_process = Some (Ret tt, p')
       /\ syncs p' = 2%nat
       /\ syncs p' <> 1%nat.
Proof.
  split; [reflexivity|].
  eexists. split; [vm_compute; reflexivity|].
  split; [reflexivity|discriminate].
Qed.

(** C7 (amended): on every exit of the loop of [start()], [sync()] is
    executed and the stopped flag is set when [start()] ends: once when
    the loop ends because the shutdown flag was found set, once when an
    unexpected error leaves it (the error is raised again), and twice
    (in the handler and in the [finally] clause) when an interrupt leaves
    it (the interrupt is swallowed).  The loop is left at the latest at
    the first test that finds the flag set. *)
Theorem start_runs_sync_on_every_exit (env : Env) (fuel : nat)
    (embedded_process : bool) (p p1 p2 : Process) (left : outcome unit)
    (Hentered : start_prelude env embedded_process p = (Ret tt, p1))
    (Hleft : start_loop env fuel p1 = Some (left, p2)) :
  (exists p',
     start env fuel embedded_process p =
       Some (match left with
             | Ret _ => Ret tt
             | Raise e => if is_interrupt e then Ret tt else Raise e
             end, p')
     /\ _stopped (service p') = true
     /\ syncs p' = (syncs p + match left with
                              | Ret _ => 1
                              | Raise e => if is_interrupt e then 2 else 1
                              end)%nat)
  /\ (forall k, stop_requested env (shutdown_tests p1 + k) = true ->
        exists r, start env (S k) embedded_process p = Some r).
Proof.
  split.
  - pose proof (start_prelude_syncs env embedded_process p) as Hp.
    rewrite Hentered in Hp. cbn [snd] in Hp.
    pose proof (start_loop_syncs env fuel p1 Hleft) as Hl.
    unfold start. rewrite Hentered, Hleft.
    unfold try_finally, try_except, try_except_else.
    destruct left as [[]|e].
    + unfold ret. rewrite call_sync_eq. eexists. split; [reflexivity|].
      split; [reflexivity|]. rewrite syncs_call_sync. lia.
    + destruct (is_interrupt e).
      * rewrite !call_sync_eq. eexists. split; [reflexivity|].
        split; [reflexivity|]. rewrite !syncs_call_sync. lia.
      * rewrite call_sync_eq. eexists. split; [reflexivity|].
        split; [reflexivity|]. rewrite syncs_call_sync. lia.
  - intros k Hk. unfold start. rewrite Hentered.
    destruct (start_loop_returns env k p1 Hk) as [r Hr]. rewrite Hr.
    eexists. reflexivity.
Qed.

Lemma start_runs_sync_on_every_exit_witness :
  (exists p',
     start interrupted_env 1 false example_process = Some (Ret tt, p')
     /\ _stopped (service p') = true
     /\ syncs p' = (syncs example_process + 2)%nat)
  /\ (forall k,
        stop_requested interrupted_env (shutdown_tests example_entered + k) = true ->
        exists r, start interrupted_env (S k) false example_process = Some r).
Proof.
  apply (@start_runs_sync_on_every_exit interrupted_env 1 false example_process
           example_entered example_left (Raise KeyboardInterrupt));
    vm_compute; reflexivity.
Defined.

(** * Schedule shorthand *)

(** The sibling path: a bare timedelta is wrapped into a policy that
    carries the relative flag. *)
Lemma maybe_schedule_timedelta (d : timedelta) (relative : option bool) :
  maybe_schedule (STimedelta d) relative = Ret (SSchedule d relative).
Proof. reflexivity. Qed.

(** An int is turned into a timedelta and returned as it is. *)
Lemma maybe_schedule_int (n : Z) (relative : option bool) :
  Z.abs (n / 86400) <= timedelta_max_days ->
  maybe_schedule (SInt n) relative = Ret (STimedelta (n * 1000000)).
Proof.
  intro H. unfold maybe_schedule, timedelta_of_seconds.
  apply Z.leb_le in H. rewrite H. reflexivity.
Qed.

(** C4 on the code: for the schedule [30] the constructor succeeds and
    the relative flag is gone from the configuration entry, but the
    entry's schedule is the bare timedelta of 30 seconds, not a policy:
    no int is ever turned into one, and the first [tick] ends with
    [AttributeError] where it asks the entry whether it is due. *)
Theorem integer_schedule_is_left_a_timedelta :
  (forall n relative run_every rel,
      maybe_schedule (SInt n) relative <> Ret (SSchedule run_every rel))
  /\ maybe_schedule (SInt 30) (Some true) = Ret (STimedelta 30000000)
  /\ fst (Scheduler_init example_env None None (mkState [] 0 [] integer_conf 0 0 []))
     = Ret tt
  /\ map (fun kv => (fst kv, schedule (snd kv))) (data integer_conf_state)
     = [("every-30s", STimedelta 30000000)]
  /\ map (fun kv => c_relative (snd kv)) (conf_schedule integer_conf_state) = [None]
  /\ fst (tick example_env integer_conf_state) = Raise AttributeError.
Proof.
  split.
  - intros n relative run_every rel. unfold maybe_schedule.
    destruct (timedelta_of_seconds n); discriminate.
  - repeat split; reflexivity.
Qed.

(** * The names in the mapping *)

Lemma extends_dict_set (ks : list string) (d : list (string * ScheduleEntry))
    (k : string) (v : ScheduleEntry) :
  extends ks d -> extends ks (dict_set k v d).
Proof.
  intros [extra H]. unfold extends. rewrite keys_dict_set.
  destruct (has_key k d).
  - exists extra. exact H.
  - exists (extra ++ [k]). rewrite H, app_assoc. reflexivity.
Qed.

Lemma forallb_dict_set (Q : ScheduleEntry -> bool)
    (d : list (string * ScheduleEntry)) (k : string) (v : ScheduleEntry) :
  forallb (fun kv => Q (snd kv)) d = true -> Q v = true ->
  forallb (fun kv => Q (snd kv)) (dict_set k v d) = true.
Proof.
  intros Hd Hv. induction d as [|[k' v'] d IH]; cbn in *.
  - rewrite Hv. reflexivity.
  - apply andb_true_iff in Hd. destruct Hd as [H1 H2].
    destruct (String.eqb k k'); cbn.
    + rewrite Hv, H2. reflexivity.
    + rewrite H1, (IH H2). reflexivity.
Qed.

Lemma settled_dict_set (ks : list string) (d : list (string * ScheduleEntry))
    (k : string) (v : ScheduleEntry) :
  settled ks d -> has_key k d = true -> name v = k ->
  settled ks (dict_set k v d).
Proof.
  intros [Hk Hn] Hin Hv. unfold settled, names_are_keys, has_key in *.
  rewrite keys_dict_set. unfold has_key. rewrite Hin.
  split; [exact Hk|].
  apply (forallb_dict_set (fun e => existsb (String.eqb (name e)) (keys d)));
    [exact Hn|].
  rewrite Hv. exact Hin.
Qed.

Lemma settled_name_known (ks : list string) (d : list (string * ScheduleEntry))
    (k : string) (e : ScheduleEntry) :
  settled ks d -> In (k, e) d -> has_key (name e) d = true.
Proof.
  intros [_ Hn] Hin. unfold names_are_keys in Hn.
  rewrite forallb_forall in Hn. exact (Hn (k, e) Hin).
Qed.

Lemma maybe_due_data (env : Env) (e : ScheduleEntry) (s : State) :
  data (snd (maybe_due env e s)) = body_data env e s.
Proof.
  rewrite <- tick_body_data, tick_body_eq.
  destruct (maybe_due env e s) as [[rem|x] s1]; [|reflexivity].
  unfold collect. destruct (rem =? 0); reflexivity.
Qed.

(** A property of the mapping that every reservation keeps is kept by
    [tick]. *)
Lemma tick_data_rule (env : Env) (P : list (string * ScheduleEntry) -> Prop)
    (Hset : forall d k e t,
        P d -> In (k, e) d -> P (dict_set (name e) (advanced e t) d))
    (s : State) :
  P (data s) -> P (data (snd (tick env s))).
Proof.
  intro H0. rewrite tick_eq.
  pose proof (@for_itervalues_preserves (tick_body env) (fun s' => P (data s')))
    as H.
  assert (Hbody : forall k e s', P (data s') -> In (k, e) (data s') ->
                                 P (data (snd (tick_body env e s')))).
  { intros k e s' HP Hin. rewrite tick_body_data. unfold body_data.
    destruct (due_now env e s') as [[[|] rem]|]; try exact HP.
    apply (Hset _ k); assumption. }
  specialize (H Hbody (List.length (data s)) O (tick_started s) H0 eq_refl).
  cbn [tick_started data emit set_remaining_times] in H.
  unfold tick_started, tick_finish.
  cbn [data emit set_remaining_times].
  destruct (for_itervalues _ _ _ _ _) as [[[]|x] s1]; cbn [snd] in H.
  - exact H.
  - destruct (is_RuntimeError x); exact H.
Qed.

Lemma run_operation_extends (env : Env) (ks : list string) (s : State) (o : operation) :
  extends ks (data s) -> extends ks (data (run_operation env s o)).
Proof.
  intro H. destruct o as [|e|e]; cbn [run_operation].
  - apply tick_data_rule; [|exact H].
    intros d k e t Hd _. apply extends_dict_set. exact Hd.
  - rewrite maybe_due_data. unfold body_data.
    destruct (due_now env e s) as [[[|] rem]|]; try exact H.
    apply extends_dict_set. exact H.
  - rewrite reserve_eq. cbn. apply extends_dict_set. exact H.
Qed.

Lemma run_operation_settled (env : Env) (ks : list string) (s : State) (o : operation) :
  settled ks (data s) -> argument_known ks o = true ->
  settled ks (data (run_operation env s o)).
Proof.
  intros H Ho. destruct o as [|e|e]; cbn [run_operation argument_known] in *.
  - apply tick_data_rule; [|exact H].
    intros d k e t Hd Hin. apply settled_dict_set; [exact Hd| |reflexivity].
    eapply settled_name_known; eassumption.
  - rewrite maybe_due_data. unfold body_data.
    destruct (due_now env e s) as [[[|] rem]|]; try exact H.
    apply settled_dict_set; [exact H| |reflexivity].
    unfold has_key. rewrite (proj1 H). exact Ho.
  - rewrite reserve_eq. cbn.
    apply settled_dict_set; [exact H| |reflexivity].
    unfold has_key. rewrite (proj1 H). exact Ho.
Qed.

Lemma run_operations_extends (env : Env) (ks : list string) (ops : list operation) :
  forall s, extends ks (data s) -> extends ks (data (run_operations env ops s)).
Proof.
  induction ops as [|o ops IH]; intros s H; cbn; [exact H|].
  apply IH. apply run_operation_extends. exact H.
Qed.

Lemma run_operations_settled (env : Env) (ks : list string) (ops : list operation) :
  forallb (argument_known ks) ops = true ->
  forall s, settled ks (data s) -> settled ks (data (run_operations env ops s)).
Proof.
  induction ops as [|o ops IH]; intros Hops s H; cbn in *; [exact H|].
  apply andb_true_iff in Hops. destruct Hops as [Ho Hops].
  apply (IH Hops). apply run_operation_settled; assumption.
Qed.

(** * What tick returns *)

Lemma observed_app (a b : list event) :
  observed (a ++ b) = observed a ++ observed b.
Proof. unfold observed. apply flat_map_app. Qed.

Ltac outcome_cases env e s :=
  unfold body_collected, body_events, body_outcome;
  destruct (due_now env e s) as [[[|] ?rem]|];
  [ destruct (send_task env (sends s) (name e) (args e) (kwargs e) (options e))
      as [?task_id|?x];
    [ | destruct (is_Exception _) eqn:?Hexc ] | | ].

Lemma body_collected_observed (env : Env) (e : ScheduleEntry) (s : State) :
  body_outcome env e s = Ret tt ->
  body_collected env e s = filter true_value (observed (body_events env e s))
  /\ List.length (observed (body_events env e s)) = 1%nat.
Proof.
  outcome_cases env e s; intro H; try discriminate H; cbn; unfold true_value;
    destruct (_ =? 0); split; reflexivity.
Qed.

Lemma body_outcome_raise (env : Env) (e : ScheduleEntry) (s : State) (x : exn) :
  body_outcome env e s = Raise x ->
  is_RuntimeError x = false /\ is_SchedulingError x = false.
Proof.
  outcome_cases env e s; intro H; try discriminate H; injection H as <-.
  - destruct x0; try discriminate Hexc; split; reflexivity.
  - split; reflexivity.
Qed.

Lemma collecting_refl (s0 : State) : collecting s0 s0.
Proof.
  split; [reflexivity|]. exists []. rewrite !app_nil_r. split; reflexivity.
Qed.

Lemma tick_body_collecting (env : Env) (e : ScheduleEntry) (s0 s' : State) :
  collecting s0 s' ->
  match tick_body env e s' with
  | (Ret _, s'') => collecting s0 s''
  | (Raise x, _) => is_RuntimeError x = false /\ is_SchedulingError x = false
  end.
Proof.
  intros [Hm (evs & Ht & Hr)].
  pose proof (tick_body_outcome env e s') as Ho.
  pose proof (tick_body_trace env e s') as Htr.
  pose proof (tick_body_remaining_times env e s') as Hrt.
  pose proof (tick_body_max_interval env e s') as Hmi.
  destruct (tick_body env e s') as [[[]|x] s'']; cbn [fst snd] in *.
  - destruct (body_collected_observed env e s' (eq_sym Ho)) as [Hc _].
    split; [congruence|].
    exists (evs ++ body_events env e s').
    rewrite Htr, Ht, Hrt, Hr, Hc, observed_app, filter_app, !app_assoc.
    split; reflexivity.
  - apply (body_outcome_raise env e s'). symmetry. exact Ho.
Qed.

(** [tick] returns the least of the true remaining times that [is_due]
    reported during it and of [max_interval]; what it raises is neither a
    [RuntimeError] nor a [SchedulingError]. *)
Lemma tick_result (env : Env) (s : State) :
  match fst (tick env s) with
  | Ret v =>
      exists evs,
        trace (snd (tick env s)) = trace s ++ evs
        /\ py_min (filter true_value (observed evs) ++ [max_interval s]) = Ret v
  | Raise x => is_RuntimeError x = false /\ is_SchedulingError x = false
  end.
Proof.
  rewrite tick_eq.
  pose proof (@for_itervalues_rule (List.length (data s)) (tick_body env)
                (fun _ => collecting (tick_started s))
                (fun x _ => is_RuntimeError x = false /\ is_SchedulingError x = false)
                (fun pos k e s' HI _ _ => @tick_body_collecting env e _ s' HI)
                (List.length (data s)) O (tick_started s)
                (collecting_refl _) eq_refl) as H.
  assert (Hfin : forall s1, collecting (tick_started s) s1 ->
            match fst (tick_finish s1) with
            | Ret v =>
                exists evs,
                  trace (snd (tick_finish s1)) = trace s ++ evs
                  /\ py_min (filter true_value (observed evs) ++ [max_interval s])
                     = Ret v
            | Raise x => is_RuntimeError x = false /\ is_SchedulingError x = false
            end).
  { intros s1 [Hm (evs & Ht & Hr)]. unfold tick_finish. cbn [fst snd].
    cbn [tick_started max_interval remaining_times trace emit set_remaining_times]
      in Hm, Ht, Hr.
    destruct (py_min_snoc (remaining_times s1) (max_interval s1)) as [v Hv].
    rewrite Hv. exists ([EvConnect] ++ evs ++ [EvClose]).
    cbn [trace emit]. rewrite Ht, <- !app_assoc. split; [reflexivity|].
    rewrite !observed_app. cbn [observed flat_map app].
    rewrite app_nil_r, <- Hv, Hr, Hm. reflexivity. }
  destruct (for_itervalues _ _ _ _ _) as [[[]|x] s1].
  - apply Hfin. apply H.
  - destruct H as [(-> & _ & p & _ & H)|[H1 H2]].
    + cbn [is_RuntimeError]. apply Hfin. exact H.
    + rewrite H1. cbn [fst]. split; assumption.
Qed.

(** ** When every entry is visited *)

Lemma body_outcome_ret (env : Env) (e : ScheduleEntry) (s : State) :
  catchable env -> has_is_due e = true -> body_outcome env e s = Ret tt.
Proof.
  intros Hc He. unfold body_outcome, due_now. unfold has_is_due in He.
  destruct (schedule e) as [n|d|re rel|p]; try discriminate He.
  - destruct (schedule_is_due env re rel _ _) as [[|] rem]; [|reflexivity].
    destruct (send_task env _ _ _ _ _) as [id|x] eqn:E; [reflexivity|].
    rewrite (Hc _ _ _ _ _ _ E). reflexivity.
  - destruct (p _ _) as [[|] rem]; [|reflexivity].
    destruct (send_task env _ _ _ _ _) as [id|x] eqn:E; [reflexivity|].
    rewrite (Hc _ _ _ _ _ _ E). reflexivity.
Qed.

Lemma tick_body_visiting (env : Env) (Hc : catchable env) (ks : list string)
    (s0 : State) (pos : nat) (k : string) (e : ScheduleEntry) (s' : State) :
  visiting ks s0 pos s' -> In (k, e) (data s') ->
  match tick_body env e s' with
  | (Ret _, s'') => visiting ks s0 (S pos) s''
  | (Raise x, _) => False
  end.
Proof.
  intros (Hm & Hs & Hd & evs & Ht & Hr & Hl) Hin.
  assert (He : has_is_due e = true).
  { unfold all_have_is_due in Hd. rewrite forallb_forall in Hd.
    exact (Hd (k, e) Hin). }
  pose proof (@body_outcome_ret env e s' Hc He) as Hout.
  pose proof (tick_body_outcome env e s') as Ho.
  pose proof (tick_body_trace env e s') as Htr.
  pose proof (tick_body_remaining_times env e s') as Hrt.
  pose proof (tick_body_max_interval env e s') as Hmi.
  pose proof (tick_body_data env e s') as Hda.
  destruct (body_collected_observed env e s' Hout) as [Hcol Hone].
  rewrite Hout in Ho.
  destruct (tick_body env e s') as [[[]|x] s'']; cbn [fst snd] in *;
    [|discriminate Ho].
  split; [congruence|].
  assert (Hadv : forall t, has_is_due (advanced e t) = true) by (intro t; exact He).
  split; [|split].
  - rewrite Hda. unfold body_data.
    destruct (due_now env e s') as [[[|] rem]|]; try exact Hs.
    apply settled_dict_set; [exact Hs| |reflexivity].
    eapply settled_name_known; eassumption.
  - rewrite Hda. unfold body_data.
    destruct (due_now env e s') as [[[|] rem]|]; try exact Hd.
    apply (forallb_dict_set has_is_due); [exact Hd|apply Hadv].
  - exists (evs ++ body_events env e s').
    rewrite Htr, Ht, Hrt, Hr, Hcol, observed_app, filter_app, !app_assoc,
      length_app, Hone, Hl.
    repeat split. lia.
Qed.

(** When every name is a key, every schedule is a policy and the
    transport fails only by exceptions, [tick] returns, having asked
    [is_due] once for each position of the mapping. *)
Lemma tick_visits_all (env : Env) (s : State) :
  names_are_keys (data s) = true -> all_have_is_due (data s) = true ->
  catchable env ->
  exists v evs,
    fst (tick env s) = Ret v
    /\ trace (snd (tick env s)) = trace s ++ evs
    /\ List.length (observed evs) = List.length (data s)
    /\ py_min (filter true_value (observed evs) ++ [max_interval s]) = Ret v
    /\ keys (data (snd (tick env s))) = keys (data s).
Proof.
  intros Hn Hd Hc. rewrite tick_eq.
  assert (H0 : visiting (keys (data s)) (tick_started s) O (tick_started s)).
  { split; [reflexivity|]. split; [split; [reflexivity|exact Hn]|].
    split; [exact Hd|]. exists []. rewrite !app_nil_r. repeat split. }
  pose proof (@for_itervalues_rule (List.length (data s)) (tick_body env)
                (visiting (keys (data s)) (tick_started s))
                (fun _ _ => False)
                (fun pos k e s' HI _ N =>
                   @tick_body_visiting env Hc _ _ pos k e s' HI (nth_error_In _ _ N))
                (List.length (data s)) O (tick_started s) H0 eq_refl) as H.
  destruct (for_itervalues _ _ _ _ _) as [[[]|x] s1].
  - destruct H as [(Hm & [Hk _] & _ & evs & Ht & Hr & Hl) _].
    unfold tick_finish. cbn [fst snd].
    cbn [tick_started max_interval remaining_times trace emit set_remaining_times]
      in Hm, Ht, Hr.
    destruct (py_min_snoc (remaining_times s1) (max_interval s1)) as [v Hv].
    exists v, ([EvConnect] ++ evs ++ [EvClose]).
    split; [exact Hv|]. cbn [trace emit data].
    rewrite Ht, <- !app_assoc. split; [reflexivity|].
    rewrite !observed_app. cbn [observed flat_map app].
    rewrite app_nil_r. split; [exact Hl|].
    split; [|exact Hk].
    rewrite <- Hv, Hr, Hm. reflexivity.
  - exfalso. destruct H as [(_ & Hlen & p & _ & (_ & [Hk _] & _))|[]].
    apply Hlen. rewrite <- (length_map fst (data s1)).
    fold (keys (data s1)). rewrite Hk. unfold keys. apply length_map.
Qed.

Lemma skipn_length_app {A} (a b : list A) : skipn (List.length a) (a ++ b) = b.
Proof. induction a as [|x a IH]; [reflexivity|exact IH]. Qed.

Lemma tick_events_eq (env : Env) (s : State) (evs : list event) :
  trace (snd (tick env s)) = trace s ++ evs -> tick_events env s = evs.
Proof. intro H. unfold tick_events. rewrite H. apply skipn_length_app. Qed.

Lemma tick_returns_min (env : Env) (s : State) (v : Z) :
  fst (tick env s) = Ret v ->
  py_min (filter true_value (reported env s) ++ [max_interval s]) = Ret v.
Proof.
  intro H. pose proof (tick_result env s) as R. rewrite H in R.
  destruct R as (evs & Ht & Hv). unfold reported.
  rewrite (@tick_events_eq env s evs Ht). exact Hv.
Qed.

Lemma tick_empty (env : Env) (s : State) :
  data s = [] -> fst (tick env s) = Ret (max_interval s).
Proof.
  intro H. rewrite tick_eq, H. cbn [List.length for_itervalues].
  unfold tick_started. cbn [data emit set_remaining_times]. rewrite H.
  reflexivity.
Qed.

Lemma example_env_catchable : catchable example_env.
Proof.
  intros k n a kw o x H. cbn in H.
  destruct (Nat.eqb k 0); [|discriminate H].
  injection H as <-. reflexivity.
Qed.

(** C1, as stated, fails: a remaining time of 0 is not collected, so the
    value returned is [max_interval], not the least of 0 and
    [max_interval]; and when a reservation stores under a new key, the
    scan ends there, so [is_due] is not called on the entries behind. *)
Lemma tick_skips_zero_remaining :
  (reported example_env eager_state = [0]
   /\ fst (tick example_env eager_state) = Ret 300
   /\ py_min (reported example_env eager_state ++ [max_interval eager_state]) = Ret 0
   /\ fst (tick example_env eager_state)
      <> py_min (reported example_env eager_state ++ [max_interval eager_state]))
  /\ (List.length (data renamed_pair_state) = 2%nat
      /\ calls (tick_events example_env renamed_pair_state)
         = [EvIsDue "tasks.x" true 60;
            EvSend "tasks.x" (PTuple []) (PDict []) (PDict [])]).
Proof.
  split.
  - repeat split; try reflexivity. discriminate.
  - split; reflexivity.
Qed.

(** C3: on durations, that is when [max_interval] is at least 0 and no
    [is_due()] reports a negative remaining time during the tick, every
    value [tick()] returns lies between 0 and [max_interval] (the upper
    bound needs neither assumption); with an empty mapping [tick()]
    returns exactly [max_interval].  [tick()] does return when every
    stored name is a key of the mapping, every schedule is a policy
    object and the transport fails only by exceptions. *)
Theorem tick_interval_bounds (env : Env) (s : State) :
  (forall v,
      fst (tick env s) = Ret v ->
      v <= max_interval s
      /\ (0 <= max_interval s ->
          Forall (fun r => 0 <= r) (reported env s) ->
          0 <= v))
  /\ (data s = [] -> fst (tick env s) = Ret (max_interval s))
  /\ (names_are_keys (data s) = true ->
      all_have_is_due (data s) = true ->
      catchable env ->
      exists v, fst (tick env s) = Ret v).
Proof.
  split; [|split; [apply tick_empty|]].
  - intros v Hv. apply tick_returns_min in Hv.
    apply py_min_spec in Hv. destruct Hv as [Hin Hle].
    rewrite Forall_forall in Hle. split.
    + apply Hle. apply in_or_app. right. left. reflexivity.
    + intros Hm Hr. apply in_app_or in Hin. destruct Hin as [Hin|[<-|[]]].
      * apply filter_In in Hin. rewrite Forall_forall in Hr.
        apply Hr. apply Hin.
      * exact Hm.
  - intros Hn Hd Hc.
    destruct (@tick_visits_all env s Hn Hd Hc) as (v & _ & Hv & _).
    exists v. exact Hv.
Qed.

Lemma tick_interval_bounds_witness :
  fst (tick example_env own_names_state) = Ret 48
  /\ 48 <= max_interval own_names_state
  /\ 0 <= 48.
Proof.
  destruct (proj1 (tick_interval_bounds example_env own_names_state) 48 eq_refl)
    as [H1 H2].
  split; [reflexivity|]. split; [exact H1|].
  apply H2; [cbn; lia|].
  repeat constructor; cbn; lia.
Defined.

(** * Dispatch failures *)

Lemma calls_app (a b : list event) : calls (a ++ b) = calls a ++ calls b.
Proof. apply filter_app. Qed.

Lemma calls_body_events (env : Env) (e : ScheduleEntry) (s : State) :
  calls (body_events env e s) =
  match due_now env e s with
  | None => []
  | Some (false, rem) => [EvIsDue (name e) false rem]
  | Some (true, rem) =>
      [EvIsDue (name e) true rem; EvSend (name e) (args e) (kwargs e) (options e)]
  end.
Proof.
  unfold body_events.
  destruct (due_now env e s) as [[[|] rem]|]; try reflexivity.
  destruct (send_task env _ _ _ _ _) as [id|x]; [reflexivity|].
  destruct (is_Exception x); reflexivity.
Qed.

Lemma body_outcome_catchable (env : Env) (e : ScheduleEntry) (s : State) :
  catchable env ->
  body_outcome env e s =
  match due_now env e s with
  | None => Raise AttributeError
  | Some _ => Ret tt
  end.
Proof.
  intro Hc. unfold body_outcome.
  destruct (due_now env e s) as [[[|] rem]|]; try reflexivity.
  destruct (send_task env _ _ _ _ _) as [id|x] eqn:E; [reflexivity|].
  rewrite (Hc _ _ _ _ _ _ E). reflexivity.
Qed.

Lemma alike_refl (s : State) : alike s s.
Proof. repeat split. Qed.

Lemma alike_emit (ev : event) (s1 s2 : State) :
  alike s1 s2 -> alike (emit ev s1) (emit ev s2).
Proof.
  intros (H1 & H2 & H3 & H4 & H5 & H6 & H7).
  repeat split; cbn; try assumption.
  rewrite !calls_app, H7. reflexivity.
Qed.

Section TwoTransports.

Variable env : Env.

Variable transport : nat -> string -> pyval -> pyval -> pyval -> send_result.

Hypothesis Hc1 : catchable env.

Hypothesis Hc2 : catchable (with_transport env transport).

Lemma due_now_alike (e : ScheduleEntry) (s1 s2 : State) :
  alike s1 s2 -> due_now (with_transport env transport) e s2 = due_now env e s1.
Proof.
  intros (_ & _ & _ & _ & H5 & _). unfold due_now. cbn. rewrite H5. reflexivity.
Qed.

Lemma tick_body_alike (e : ScheduleEntry) (s1 s2 : State) :
  alike s1 s2 ->
  fst (tick_body env e s1) = fst (tick_body (with_transport env transport) e s2)
  /\ alike (snd (tick_body env e s1))
           (snd (tick_body (with_transport env transport) e s2)).
Proof.
  intro H. pose proof (due_now_alike e H) as Hd.
  destruct H as (H1 & H2 & H3 & H4 & H5 & H6 & H7).
  split.
  - rewrite !tick_body_outcome, !body_outcome_catchable, Hd by assumption.
    reflexivity.
  - unfold alike.
    rewrite !tick_body_data, !tick_body_max_interval, !tick_body_remaining_times,
      !tick_body_conf_schedule, !tick_body_clock_reads, !tick_body_sends,
      !tick_body_trace, !calls_app, !calls_body_events.
    unfold body_data, body_collected.
    rewrite !body_outcome_catchable, Hd by assumption.
    cbn [now with_transport].
    rewrite H1, H2, H3, H4, H5, H6, H7. repeat split.
Qed.

Lemma for_itervalues_alike (used : nat) :
  forall left pos s1 s2,
    alike s1 s2 ->
    fst (for_itervalues left pos used (tick_body env) s1)
    = fst (for_itervalues left pos used
             (tick_body (with_transport env transport)) s2)
    /\ alike (snd (for_itervalues left pos used (tick_body env) s1))
             (snd (for_itervalues left pos used
                     (tick_body (with_transport env transport)) s2)).
Proof.
  induction left as [|left IH]; intros pos s1 s2 H;
    pose proof H as (H1 & _); cbn [for_itervalues]; rewrite H1.
  - destruct (negb _); split; try reflexivity; exact H.
  - destruct (negb _); [split; [reflexivity|exact H]|].
    destruct (nth_error (data s2) pos) as [[k e]|];
      [|split; [reflexivity|exact H]].
    unfold bind. destruct (tick_body_alike e H) as [Ho Ha].
    destruct (tick_body env e s1) as [[[]|x] s1'],
             (tick_body (with_transport env transport) e s2) as [[[]|y] s2'];
      cbn [fst snd] in *; try discriminate Ho.
    + apply IH. exact Ha.
    + split; [exact Ho|exact Ha].
Qed.

Lemma tick_alike (s : State) :
  fst (tick env s) = fst (tick (with_transport env transport) s)
  /\ alike (snd (tick env s)) (snd (tick (with_transport env transport) s)).
Proof.
  rewrite !tick_eq.
  destruct (@for_itervalues_alike (List.length (data s)) (List.length (data s)) O
              (tick_started s) (tick_started s) (alike_refl _)) as [Ho Ha].
  assert (Hfin : forall s1 s2, alike s1 s2 ->
            fst (tick_finish s1) = fst (tick_finish s2)
            /\ alike (snd (tick_finish s1)) (snd (tick_finish s2))).
  { intros s1 s2 H. unfold tick_finish. cbn [fst snd]. split.
    - destruct H as (_ & H2 & H3 & _). rewrite H2, H3. reflexivity.
    - apply alike_emit. exact H. }
  destruct (for_itervalues _ _ _ (tick_body env) _) as [[[]|x] s1],
           (for_itervalues _ _ _ (tick_body (with_transport env transport)) _)
             as [[[]|y] s2];
    cbn [fst snd] in Ho, Ha; try discriminate Ho.
  - apply Hfin. exact Ha.
  - injection Ho as <-. destruct (is_RuntimeError x).
    + apply Hfin. exact Ha.
    + cbn [fst snd]. split; [reflexivity|]. apply alike_emit. exact Ha.
Qed.

End TwoTransports.

(** A property of event lists that holds of the events of every turn and
    of joined lists holds of the events of a whole [tick]. *)
Lemma tick_trace_rule (env : Env) (Q : list event -> Prop)
    (Happ : forall a b, Q a -> Q b -> Q (a ++ b))
    (Hconnect : Q [EvConnect]) (Hclose : Q [EvClose])
    (Hbody : forall e s, Q (body_events env e s))
    (s : State) :
  exists evs, trace (snd (tick env s)) = trace s ++ evs /\ Q evs.
Proof.
  rewrite tick_eq.
  pose proof (@for_itervalues_preserves (tick_body env)
                (fun s' => exists evs, trace s' = trace s ++ evs /\ Q evs)) as H.
  assert (Hstep : forall k e s',
             (exists evs, trace s' = trace s ++ evs /\ Q evs) ->
             In (k, e) (data s') ->
             exists evs, trace (snd (tick_body env e s')) = trace s ++ evs /\ Q evs).
  { intros k e s' (evs & Ht & HQ) _. exists (evs ++ body_events env e s').
    rewrite tick_body_trace, Ht, app_assoc. split; [reflexivity|].
    apply Happ; [exact HQ|apply Hbody]. }
  specialize (H Hstep (List.length (data s)) O (tick_started s)).
  cbn [tick_started data emit set_remaining_times trace] in H.
  specialize (H (ex_intro _ [EvConnect] (conj eq_refl Hconnect)) eq_refl).
  assert (Hfin : forall s1,
             (exists evs, trace s1 = trace s ++ evs /\ Q evs) ->
             exists evs, trace (emit EvClose s1) = trace s ++ evs /\ Q evs).
  { intros s1 (evs & Ht & HQ). exists (evs ++ [EvClose]). cbn [trace emit].
    rewrite Ht, app_assoc. split; [reflexivity|]. apply Happ; assumption. }
  unfold tick_started, tick_finish. cbn [data emit set_remaining_times].
  destruct (for_itervalues _ _ _ _ _) as [[[]|x] s1]; cbn [snd] in H.
  - apply Hfin. exact H.
  - destruct (is_RuntimeError x); apply Hfin; exact H.
Qed.

Lemma tick_events_rule (env : Env) (Q : list event -> Prop)
    (Happ : forall a b, Q a -> Q b -> Q (a ++ b))
    (Hconnect : Q [EvConnect]) (Hclose : Q [EvClose])
    (Hbody : forall e s, Q (body_events env e s))
    (s : State) :
  Q (tick_events env s).
Proof.
  destruct (@tick_trace_rule env Q Happ Hconnect Hclose Hbody s) as (evs & Ht & HQ).
  rewrite (@tick_events_eq env s evs Ht). exact HQ.
Qed.

(** A [tick] only adds to the trace. *)
Lemma tick_trace (env : Env) (s : State) :
  trace (snd (tick env s)) = trace s ++ tick_events env s.
Proof.
  destruct (@tick_trace_rule env (fun _ => True)
              (fun _ _ _ _ => I) I I (fun _ _ => I) s) as (evs & Ht & _).
  rewrite (@tick_events_eq env s evs Ht). exact Ht.
Qed.

Lemma tick_dispatches_every_due_entry (env : Env) (s : State) :
  send_calls (tick_events env s) = due_answers (tick_events env s).
Proof.
  apply (@tick_events_rule env (fun evs => send_calls evs = due_answers evs));
    try reflexivity.
  - intros a b Ha Hb. unfold send_calls, due_answers in *.
    rewrite !filter_app, !length_app, Ha, Hb. reflexivity.
  - intros e s'. unfold body_events.
    destruct (due_now env e s') as [[[|] rem]|]; try reflexivity.
    destruct (send_task env _ _ _ _ _) as [id|x]; [reflexivity|].
    destruct (is_Exception x); reflexivity.
Qed.

Lemma maybe_due_outcome (env : Env) (e : ScheduleEntry) (s : State) :
  fst (maybe_due env e s) =
  match due_now env e s with
  | None => Raise AttributeError
  | Some (false, rem) => Ret rem
  | Some (true, rem) =>
      match send_task env (sends s) (name e) (args e) (kwargs e) (options e) with
      | Sent _ => Ret rem
      | SendRaises x => if is_Exception x then Ret rem else Raise x
      end
  end.
Proof.
  rewrite maybe_due_eq.
  destruct (due_now env e s) as [[[|] rem]|]; try reflexivity.
  cbn [sends emit asked set_clock_reads].
  destruct (send_task env _ _ _ _ _) as [id|x]; [reflexivity|].
  destruct (is_Exception x); reflexivity.
Qed.

(** After the failed dispatch of ["a"], ["b"] is evaluated and sent. *)
Example second_entry_sent_after_failure :
  send_task example_env 0 "a" (PTuple []) (PDict []) (PDict [])
  = SendRaises (OtherError "broker unreachable")
  /\ fst (tick example_env both_due_state) = Ret 60
  /\ calls (tick_events example_env both_due_state)
     = [EvIsDue "a" true 60; EvSend "a" (PTuple []) (PDict []) (PDict []);
        EvIsDue "b" true 60; EvSend "b" (PTuple []) (PDict []) (PDict [])]
  /\ In (EvLog LError "a") (tick_events example_env both_due_state).
Proof.
  repeat split; try reflexivity.
  cbn. tauto.
Qed.

(** * The theorems above at concrete inputs *)

Lemma next_advances_entry_witness :
  exists e',
    fst (next example_env (example_entry "a" (SSchedule 60 None) 900)
              (example_state [])) = Ret e'
    /\ total_run_count e' = 0 + 1
    /\ last_run_at e' >= 900.
Proof.
  destruct (next_advances_entry example_env
              (example_entry "a" (SSchedule 60 None) 900) (example_state []))
    as (e' & H1 & _ & _ & _ & _ & _ & H7 & _ & H9 & _).
  exists e'. split; [rewrite H1; reflexivity|].
  split; [exact H7|].
  apply H9. cbn. lia.
Defined.

Lemma constructor_ignores_schedule_argument_witness :
  Scheduler_init example_env (Some (data both_due_state)) None
                 (mkState [] 0 [] renamed_conf 0 0 [])
  = Scheduler_init example_env None None (mkState [] 0 [] renamed_conf 0 0 [])
  /\ fst (Scheduler_init example_env (Some (data both_due_state)) None
                         (mkState [] 0 [] renamed_conf 0 0 [])) = Ret tt
  /\ data (snd (Scheduler_init example_env (Some (data both_due_state)) None
                               (mkState [] 0 [] renamed_conf 0 0 [])))
     = [("every-minute", mkEntry "tasks.add" (SSchedule 60 None) (PTuple [])
                                 (PDict []) (PDict []) 0 0)].
Proof.
  apply (proj1 (proj2 (constructor_ignores_schedule_argument example_env
                         (Some (data both_due_state)) None None
                         (mkState [] 0 [] renamed_conf 0 0 [])))
               _ (snd (dict_to_entries example_env
                         (mkState [] 0 [] renamed_conf 0 0 [])))).
  vm_compute. reflexivity.
Defined.

(** * Further properties of the scheduler *)

Section DictMoreFacts.
Variable V : Type.

Lemma dict_get_set_other (k k' : string) (v : V) (d : list (string * V)) :
  k' <> k -> dict_get k' (dict_set k v d) = dict_get k' d.
Proof.
  intro Hne. induction d as [|[k0 v0] d IH]; cbn.
  - destruct (String.eqb_spec k' k) as [E|_]; [contradiction|reflexivity].
  - destruct (String.eqb_spec k k0) as [E|E]; cbn.
    + subst k0. destruct (String.eqb_spec k' k) as [E'|_]; [contradiction|].
      reflexivity.
    + destruct (String.eqb k' k0); [reflexivity|exact IH].
Qed.

Lemma dict_get_has_key (k : string) (d : list (string * V)) :
  has_key k d = true <-> exists v, dict_get k d = Some v.
Proof.
  unfold has_key, keys. induction d as [|[k0 v0] d IH]; cbn.
  - split; [discriminate|intros [v H]; discriminate H].
  - destruct (String.eqb k k0); cbn.
    + split; [intros _; exists v0; reflexivity|reflexivity].
    + exact IH.
Qed.

End DictMoreFacts.

(** X1: [reserve] stores the entry it returns under the name of the entry it
    was given, where a lookup finds it; the entry differs from the given
    one in [last_run_at] and [total_run_count] only; what is stored under
    every other name stays; the clock is read once. *)
Theorem reserve_stores_what_it_returns (env : Env) (entry : ScheduleEntry) (s : State) :
  exists new_entry,
    fst (reserve env entry s) = Ret new_entry
    /\ dict_get (name entry) (data (snd (reserve env entry s))) = Some new_entry
    /\ new_entry = advanced entry (now env (clock_reads s))
    /\ (forall k, k <> name entry ->
          dict_get k (data (snd (reserve env entry s))) = dict_get k (data s))
    /\ clock_reads (snd (reserve env entry s)) = S (clock_reads s)
    /\ trace (snd (reserve env entry s)) = trace s.
Proof.
  rewrite reserve_eq. eexists. split; [reflexivity|]. cbn.
  split; [apply dict_get_set_same|]. split; [reflexivity|].
  split; [|split; reflexivity].
  intros k Hk. apply dict_get_set_other. exact Hk.
Qed.

(** X2: [apply_async] calls [send_task] exactly once, with the name, args,
    kwargs and options of the entry, after the reservation.  It returns
    what [send_task] returns; an [Exception] from [send_task] comes out
    as a [SchedulingError] that carries the entry's name and the cause;
    [KeyboardInterrupt] and [SystemExit] come out as they are. *)
Theorem apply_async_wraps_exceptions (env : Env) (entry : ScheduleEntry) (s : State) :
  let r := send_task env (sends s) (name entry) (args entry) (kwargs entry)
                     (options entry) in
  fst (apply_async env entry s)
  = match r with
    | Sent task_id => Ret task_id
    | SendRaises x =>
        if is_interrupt x then Raise x else Raise (SchedulingError (name entry) x)
    end
  /\ sends (snd (apply_async env entry s)) = S (sends s)
  /\ (exists before,
        trace (snd (apply_async env entry s))
        = before ++ [EvSend (name entry) (args entry) (kwargs entry) (options entry)]
        /\ send_calls before = send_calls (trace s))
  /\ data (snd (apply_async env entry s)) = data (snd (reserve env entry s)).
Proof.
  intro r. subst r. rewrite apply_async_eq, reserve_eq.
  assert (Hst : forall o : outcome string,
             sends (snd (o, dispatched env entry s)) = S (sends s)
             /\ (exists before,
                   trace (snd (o, dispatched env entry s))
                   = before ++ [EvSend (name entry) (args entry) (kwargs entry)
                                       (options entry)]
                   /\ send_calls before = send_calls (trace s))
             /\ data (snd (o, dispatched env entry s))
                = data (snd (Ret (advanced entry (now env (clock_reads s))),
                             reserved env entry s))).
  { intro o. cbn. split; [reflexivity|]. split; [|reflexivity].
    eexists. split; [reflexivity|].
    unfold send_calls. rewrite filter_app, length_app. cbn. lia. }
  destruct (send_task env (sends s) (name entry) (args entry) (kwargs entry)
                      (options entry)) as [task_id|x].
  - split; [reflexivity|apply Hst].
  - split; [|apply Hst]. destruct x; reflexivity.
Qed.

(** A property that holds when the loop of [tick] starts and that every
    turn keeps holds when the loop is left, however it is left. *)
Lemma tick_rule (env : Env) (I Q : State -> Prop) (s : State) :
  I (tick_started s) ->
  (forall k e s', I s' -> In (k, e) (data s') -> I (snd (tick_body env e s'))) ->
  (forall s1, I s1 -> Q (emit EvClose s1)) ->
  Q (snd (tick env s)).
Proof.
  intros H0 Hbody Hfin. rewrite tick_eq.
  pose proof (@for_itervalues_preserves (tick_body env) I Hbody
                (List.length (data s)) O (tick_started s) H0 eq_refl) as H.
  cbn [tick_started data emit set_remaining_times] in H.
  unfold tick_started, tick_finish in *. cbn [data emit set_remaining_times].
  destruct (for_itervalues _ _ _ _ _) as [[[]|x] s1]; cbn [snd] in H.
  - apply Hfin. exact H.
  - destruct (is_RuntimeError x); apply Hfin; exact H.
Qed.

Lemma body_events_no_connection (env : Env) (e : ScheduleEntry) (s : State) :
  no_connection (body_events env e s).
Proof.
  unfold no_connection, body_events.
  destruct (due_now env e s) as [[[|] rem]|]; try reflexivity.
  destruct (send_task env _ _ _ _ _) as [id|x]; [reflexivity|].
  destruct (is_Exception x); reflexivity.
Qed.

(** X3: The connection of a [tick] is scoped: whatever the entries and
    however the tick ends (it returns, the scan is abandoned, or an
    error escapes), the tick first opens one connection and last closes
    it, and opens or closes none in between. *)
Theorem tick_closes_its_connection (env : Env) (s : State) :
  exists between,
    tick_events env s = EvConnect :: between ++ [EvClose]
    /\ no_connection between.
Proof.
  assert (H : exists between,
             trace (snd (tick env s)) = trace s ++ EvConnect :: between ++ [EvClose]
             /\ no_connection between).
  { apply (@tick_rule env
             (fun s' => exists between,
                  trace s' = trace s ++ EvConnect :: between
                  /\ no_connection between)).
    - exists []. split; reflexivity.
    - intros k e s' (between & Ht & Hq) _.
      exists (between ++ body_events env e s').
      rewrite tick_body_trace, Ht, <- app_assoc. split; [reflexivity|].
      unfold no_connection in *. rewrite forallb_app, Hq.
      apply body_events_no_connection.
    - intros s1 (between & Ht & Hq). exists between. cbn [trace emit].
      rewrite Ht, <- app_assoc. split; [reflexivity|exact Hq]. }
  destruct H as (between & Ht & Hq). exists between.
  split; [|exact Hq]. apply tick_events_eq. exact Ht.
Qed.

Lemma due_now_clock (env : Env) (e : ScheduleEntry) (s1 s2 : State) :
  clock_reads s1 = clock_reads s2 -> due_now env e s1 = due_now env e s2.
Proof. intro H. unfold due_now. rewrite H. reflexivity. Qed.

(** X4: A tick in which no entry is due when it is asked (the entry at
    position [i] is asked at the [i]-th reading of the clock after the
    tick began) dispatches nothing: [send_task] is not called and the
    mapping is left as it was. *)
Theorem idle_tick_changes_no_entry (env : Env) (s : State)
    (Hidle : forall i k e rem,
        nth_error (data s) i = Some (k, e) ->
        fst (is_due env e (set_clock_reads (clock_reads s + i) s))
        <> Ret (true, rem)) :
  data (snd (tick env s)) = data s
  /\ sends (snd (tick env s)) = sends s
  /\ send_calls (tick_events env s) = O.
Proof.
  set (Q := fun s' : State =>
              data s' = data s /\ sends s' = sends s
              /\ exists evs, trace s' = trace s ++ evs /\ send_calls evs = O).
  assert (Hclose : forall s1, Q s1 -> Q (emit EvClose s1)).
  { intros s1 (Hd & Hs & evs & Ht & Hn). repeat split; try assumption.
    exists (evs ++ [EvClose]). cbn [trace emit].
    rewrite Ht, app_assoc. split; [reflexivity|].
    unfold send_calls in *. rewrite filter_app, length_app, Hn. reflexivity. }
  assert (H : Q (snd (tick env s))).
  { rewrite tick_eq.
    pose proof (@for_itervalues_rule (List.length (data s)) (tick_body env)
                  (fun pos s' => Q s' /\ clock_reads s' = (clock_reads s + pos)%nat)
                  (fun _ s' => Q s')) as H.
    assert (Hbody : forall pos k e s',
               Q s' /\ clock_reads s' = (clock_reads s + pos)%nat ->
               List.length (data s') = List.length (data s) ->
               nth_error (data s') pos = Some (k, e) ->
               match tick_body env e s' with
               | (Ret _, s'') =>
                   Q s'' /\ clock_reads s'' = (clock_reads s + S pos)%nat
               | (Raise _, s'') => Q s''
               end).
    { intros pos k e s' [(Hd & Hs & evs & Ht & Hn) Hc] _ N. rewrite Hd in N.
      assert (Hne : forall rem, due_now env e s' <> Some (true, rem)).
      { intros rem Hdue. apply (Hidle pos k e rem N).
        rewrite is_due_eq.
        rewrite (@due_now_clock env e (set_clock_reads (clock_reads s + pos) s) s')
          by (symmetry; exact Hc).
        rewrite Hdue. reflexivity. }
      pose proof (tick_body_outcome env e s') as Ho.
      pose proof (tick_body_data env e s') as Hda.
      pose proof (tick_body_sends env e s') as Hse.
      pose proof (tick_body_trace env e s') as Htr.
      pose proof (tick_body_clock_reads env e s') as Hcl.
      unfold body_outcome, body_data, body_events in *.
      destruct (tick_body env e s') as [r s'']; cbn [fst snd] in *.
      destruct (due_now env e s') as [[[|] rem]|].
      - exfalso. apply (Hne rem). reflexivity.
      - subst r. split; [|lia]. unfold Q. repeat split; try congruence.
        exists (evs ++ [EvIsDue (name e) false rem]).
        rewrite Htr, Ht, app_assoc. split; [reflexivity|].
        unfold send_calls in *. rewrite filter_app, length_app, Hn. reflexivity.
      - subst r. unfold Q. repeat split; try congruence.
        exists evs. rewrite Htr, app_nil_r. split; assumption. }
    assert (H0 : Q (tick_started s)
                 /\ clock_reads (tick_started s) = (clock_reads s + 0)%nat).
    { split; [|cbn; lia]. unfold Q. repeat split.
      exists [EvConnect]. split; reflexivity. }
    specialize (H Hbody (List.length (data s)) O (tick_started s) H0 eq_refl).
    unfold tick_finish.
    destruct (for_itervalues _ _ _ _ _) as [[[]|x] s1].
    - apply Hclose. apply H.
    - assert (Hq : Q s1).
      { destruct H as [(_ & _ & p & _ & Hq & _)|Hq]; exact Hq. }
      destruct (is_RuntimeError x); apply Hclose; exact Hq. }
  destruct H as (Hd & Hs & evs & Ht & Hn).
  repeat split; try assumption.
  rewrite (@tick_events_eq env s evs Ht). exact Hn.
Qed.

Lemma idle_tick_changes_no_entry_witness :
  data (snd (tick example_env
               (example_state [("b", example_entry "b" (SSchedule 60 None) 990)])))
  = [("b", example_entry "b" (SSchedule 60 None) 990)]
  /\ sends (snd (tick example_env
                   (example_state [("b", example_entry "b" (SSchedule 60 None) 990)])))
     = O
  /\ send_calls (tick_events example_env
                   (example_state [("b", example_entry "b" (SSchedule 60 None) 990)]))
     = O.
Proof.
  apply (@idle_tick_changes_no_entry example_env
           (example_state [("b", example_entry "b" (SSchedule 60 None) 990)])).
  intros [|[|i]] k e rem H; try discriminate H.
  injection H as <- <-. discriminate.
Defined.

Section DictPositions.
Variable V : Type.

Lemma nth_error_key_in (d : list (string * V)) (i : nat) (k : string) (v : V) :
  nth_error d i = Some (k, v) -> In k (keys d).
Proof.
  intro H. apply nth_error_In in H. unfold keys.
  change k with (fst (k, v)). apply in_map. exact H.
Qed.

Lemma dict_get_nth_error (d : list (string * V)) :
  NoDup (keys d) ->
  forall i k v, nth_error d i = Some (k, v) -> dict_get k d = Some v.
Proof.
  induction d as [|[k0 v0] d IH]; intros Hnd i k v H.
  - destruct i; discriminate H.
  - cbn in Hnd. apply NoDup_cons_iff in Hnd. destruct Hnd as [Hnotin Hnd].
    destruct i as [|i]; cbn in H |- *.
    + injection H as -> ->. rewrite String.eqb_refl. reflexivity.
    + destruct (String.eqb_spec k k0) as [E|_].
      * subst k0. exfalso. apply Hnotin. exact (nth_error_key_in _ _ H).
      * exact (IH Hnd i k v H).
Qed.

Lemma nth_error_dict_set_other (d : list (string * V)) :
  NoDup (keys d) ->
  forall pos k v0 v i,
    nth_error d pos = Some (k, v0) -> i <> pos ->
    nth_error (dict_set k v d) i = nth_error d i.
Proof.
  induction d as [|[k0 w] d IH]; intros Hnd pos k v0 v i H Hi.
  - destruct pos; discriminate H.
  - cbn in Hnd. apply NoDup_cons_iff in Hnd. destruct Hnd as [Hnotin Hnd].
    destruct pos as [|pos]; cbn in H.
    + injection H as -> ->. cbn. rewrite String.eqb_refl.
      destruct i as [|i]; [contradiction|reflexivity].
    + cbn. destruct (String.eqb_spec k k0) as [E|_].
      * subst k0. exfalso. apply Hnotin. exact (nth_error_key_in _ _ H).
      * destruct i as [|i]; [reflexivity|]. cbn.
        apply (IH Hnd pos k v0 v i H). intro E. apply Hi. rewrite E. reflexivity.
Qed.

End DictPositions.

Lemma has_key_In (k : string) (d : list (string * ScheduleEntry)) :
  In k (keys d) -> has_key k d = true.
Proof.
  intro H. unfold has_key. apply existsb_exists. exists k.
  split; [exact H|apply String.eqb_refl].
Qed.

(** X5: When every entry is stored under its own name, a tick supersedes
    each entry at most once: afterwards the keys are the same and each
    key holds either the entry it held or that entry advanced by one run
    (same name, schedule and arguments, [total_run_count] one more). *)
Theorem tick_supersedes_each_entry_at_most_once (env : Env) (s : State)
    (Hown : own_keyed (data s)) :
  keys (data (snd (tick env s))) = keys (data s)
  /\ forall k e,
       dict_get k (data s) = Some e ->
       dict_get k (data (snd (tick env s))) = Some e
       \/ exists t,
            dict_get k (data (snd (tick env s))) = Some (advanced e t)
            /\ total_run_count (advanced e t) = total_run_count e + 1
            /\ name (advanced e t) = k.
Proof.
  destruct Hown as [Hnd Hnames].
  assert (H : superseded_once (data s) (data (snd (tick env s)))).
  { rewrite tick_eq.
    pose proof (@for_itervalues_rule (List.length (data s)) (tick_body env)
                  (fun pos s' =>
                     superseded_once (data s) (data s')
                     /\ forall i, (pos <= i)%nat ->
                                  nth_error (data s') i = nth_error (data s) i)
                  (fun _ s' => superseded_once (data s) (data s'))) as H.
    assert (Hbody : forall pos k e s',
               (superseded_once (data s) (data s')
                /\ forall i, (pos <= i)%nat ->
                             nth_error (data s') i = nth_error (data s) i) ->
               List.length (data s') = List.length (data s) ->
               nth_error (data s') pos = Some (k, e) ->
               match tick_body env e s' with
               | (Ret _, s'') =>
                   superseded_once (data s) (data s'')
                   /\ forall i, (S pos <= i)%nat ->
                                nth_error (data s'') i = nth_error (data s) i
               | (Raise _, s'') => superseded_once (data s) (data s'')
               end).
    { intros pos k e s' [[Hk Hsup] Hpos] _ N.
      assert (N0 : nth_error (data s) pos = Some (k, e)).
      { rewrite <- (Hpos pos (le_n _)). exact N. }
      assert (Hname : name e = k).
      { rewrite Forall_forall in Hnames.
        exact (Hnames (k, e) (nth_error_In _ _ N0)). }
      assert (Hnd' : NoDup (keys (data s'))) by (rewrite Hk; exact Hnd).
      assert (Hget0 : dict_get k (data s) = Some e).
      { eapply dict_get_nth_error; eassumption. }
      assert (Hnew : forall t,
                 superseded_once (data s)
                   (dict_set (name e) (advanced e t) (data s'))
                 /\ forall i, (S pos <= i)%nat ->
                      nth_error (dict_set (name e) (advanced e t) (data s')) i
                      = nth_error (data s) i).
      { intro t. rewrite Hname. split; [split|].
        - rewrite keys_dict_set, has_key_In; [exact Hk|].
          rewrite Hk. eapply nth_error_key_in; eassumption.
        - intros k1 e1 Hg. destruct (String.eqb_spec k1 k) as [E|E].
          + subst k1. rewrite Hget0 in Hg. injection Hg as <-.
            right. exists t. apply dict_get_set_same.
          + rewrite dict_get_set_other by exact E. apply Hsup. exact Hg.
        - intros i Hi.
          rewrite (@nth_error_dict_set_other _ (data s') Hnd' pos k e
                     (advanced e t) i N) by lia.
          apply Hpos. lia. }
      pose proof (tick_body_data env e s') as Hda.
      unfold body_data in Hda.
      destruct (tick_body env e s') as [[[]|x] s'']; cbn [snd] in Hda;
        rewrite Hda; destruct (due_now env e s') as [[[|] rem]|];
        try (split; [split; assumption|]; intros i Hi; apply Hpos; lia);
        try (split; assumption);
        try apply Hnew; apply (Hnew (now env (S (clock_reads s')))). }
    assert (H0 : superseded_once (data s) (data (tick_started s))
                 /\ forall i, (0 <= i)%nat ->
                      nth_error (data (tick_started s)) i = nth_error (data s) i).
    { split; [split; [reflexivity|]|reflexivity]. intros k e Hg. left. exact Hg. }
    specialize (H Hbody (List.length (data s)) O (tick_started s) H0 eq_refl).
    unfold tick_finish.
    destruct (for_itervalues _ _ _ _ _) as [[[]|x] s1].
    - cbn [snd data emit]. apply H.
    - assert (Hq : superseded_once (data s) (data s1)).
      { destruct H as [(_ & _ & p & _ & Hq & _)|Hq]; exact Hq. }
      destruct (is_RuntimeError x); exact Hq. }
  destruct H as [Hk Hsup]. split; [exact Hk|].
  intros k e Hg. destruct (Hsup k e Hg) as [H|[t H]]; [left; exact H|].
  right. exists t. split; [exact H|]. split; [reflexivity|].
  cbn.
  assert (Hin : In (k, e) (data s)).
  { clear - Hg. induction (data s) as [|[k0 v0] d IH]; cbn in Hg; [discriminate|].
    destruct (String.eqb_spec k k0) as [E|E].
    - injection Hg as <-. left. rewrite E. reflexivity.
    - right. exact (IH Hg). }
  rewrite Forall_forall in Hnames. exact (Hnames (k, e) Hin).
Qed.

Lemma tick_supersedes_each_entry_at_most_once_witness :
  keys (data (snd (tick example_env own_names_state))) = ["a"; "b"]
  /\ forall k e,
       dict_get k (data own_names_state) = Some e ->
       dict_get k (data (snd (tick example_env own_names_state))) = Some e
       \/ exists t,
            dict_get k (data (snd (tick example_env own_names_state)))
            = Some (advanced e t)
            /\ total_run_count (advanced e t) = total_run_count e + 1
            /\ name (advanced e t) = k.
Proof.
  apply (@tick_supersedes_each_entry_at_most_once example_env own_names_state).
  split.
  - repeat constructor; cbn; intuition discriminate.
  - repeat constructor.
Defined.

(** * Further properties of the construction *)

Section DictAppend.
Variable V : Type.

Lemma dict_set_new (k : string) (v : V) (d : list (string * V)) :
  ~ In k (keys d) -> dict_set k v d = d ++ [(k, v)].
Proof.
  induction d as [|[k0 v0] d IH]; intro H; cbn; [reflexivity|].
  destruct (String.eqb_spec k k0) as [E|_].
  - exfalso. apply H. left. symmetry. exact E.
  - rewrite IH; [reflexivity|]. intro Hin. apply H. right. exact Hin.
Qed.

Lemma dict_set_middle (k : string) (v v0 : V) (done rest : list (string * V)) :
  ~ In k (keys done) ->
  dict_set k v (done ++ (k, v0) :: rest) = done ++ (k, v) :: rest.
Proof.
  induction done as [|[k1 v1] done IH]; intro H; cbn.
  - rewrite String.eqb_refl. reflexivity.
  - destruct (String.eqb_spec k k1) as [E|_].
    + exfalso. apply H. left. symmetry. exact E.
    + rewrite IH; [reflexivity|]. intro Hin. apply H. right. exact Hin.
Qed.

End DictAppend.

(** The entry constructor on keywords without ["relative"]. *)
Lemma Entry_of_kwargs_spec (env : Env) (c : ConfEntry) (s : State) :
  c_relative c = None ->
  match c_unknown c, c_name c, c_schedule c with
  | [], Some _, Some _ =>
      exists e,
        fst (Entry_of_kwargs env c s) = Ret e
        /\ built_from ("", e) ("", c)
        /\ conf_schedule (snd (Entry_of_kwargs env c s)) = conf_schedule s
  | _, _, _ => Entry_of_kwargs env c s = (Raise TypeError, s)
  end.
Proof.
  intro Hrel. unfold Entry_of_kwargs. rewrite Hrel.
  destruct (c_unknown c) as [|u us]; [|reflexivity].
  destruct (c_name c) as [n|] eqn:Hn; [|reflexivity].
  destruct (c_schedule c) as [sc|] eqn:Hsc; [|reflexivity].
  unfold ScheduleEntry_init, bind, ret, datetime_now.
  destruct (c_last_run_at c) as [t|] eqn:Hl; eexists; cbn [fst snd];
    (split; [reflexivity|]); (split; [|reflexivity]);
    unfold built_from; cbn [fst snd name schedule args kwargs options
                              total_run_count last_run_at];
    rewrite ?Hl; repeat split; try reflexivity; try assumption;
    try (destruct (c_total_run_count c) as [n0|]; [|reflexivity];
         destruct (Z.eqb_spec n0 0) as [->|_]; reflexivity);
    try (intros t0 Ht; congruence).
Qed.

(** One turn of the loop of [dict_to_entries]. *)
Lemma dict_to_entries_loop_step (env : Env) (nm : string) (c : ConfEntry)
    (rest : list (string * ConfEntry)) (acc : list (string * ScheduleEntry))
    (s : State) :
  dict_to_entries_loop env ((nm, c) :: rest) acc s =
  let s1 := set_conf_schedule (dict_set nm (pop_relative c) (conf_schedule s)) s in
  match c_schedule c with
  | None => (Raise (KeyError "schedule"), s1)
  | Some sc =>
      match maybe_schedule sc (c_relative c) with
      | Raise x => (Raise x, s1)
      | Ret sc' =>
          let c2 := put_schedule sc' (pop_relative c) in
          let s2 := set_conf_schedule (dict_set nm c2 (conf_schedule s1)) s1 in
          match Entry_of_kwargs env c2 s2 with
          | (Ret e, s3) => dict_to_entries_loop env rest (dict_set nm e acc) s3
          | (Raise x, s3) => (Raise x, s3)
          end
      end
  end.
Proof.
  cbn [dict_to_entries_loop]. unfold bind at 1. unfold modify at 1.
  cbn [pop_relative c_schedule]. unfold bind at 1.
  destruct (c_schedule c) as [sc|]; [|reflexivity].
  unfold lift_outcome.
  destruct (maybe_schedule sc (c_relative c)) as [sc'|x]; [|reflexivity].
  unfold bind at 1. unfold modify at 1. unfold bind at 1.
  reflexivity.
Qed.

Lemma dict_to_entries_loop_spec (env : Env) (items : list (string * ConfEntry)) :
  forall done acc s,
    conf_schedule s = done ++ items ->
    NoDup (keys done ++ keys items) ->
    keys acc = keys done ->
    match first_error items with
    | Some x => fst (dict_to_entries_loop env items acc s) = Raise x
    | None =>
        exists es,
          fst (dict_to_entries_loop env items acc s) = Ret (acc ++ es)
          /\ conf_schedule (snd (dict_to_entries_loop env items acc s))
             = done ++ map convert_item items
          /\ Forall2 built_from es (map convert_item items)
    end.
Proof.
  induction items as [|[nm c] rest IH]; intros done acc s Hconf Hnd Hkeys.
  - cbn. exists []. rewrite !app_nil_r in *. repeat split; [exact Hconf|constructor].
  - assert (Hnotin : ~ In nm (keys done)).
    { cbn in Hnd. apply NoDup_remove_2 in Hnd. intro H. apply Hnd.
      apply in_or_app. left. exact H. }
    rewrite dict_to_entries_loop_step. cbn zeta. cbn [first_error].
    unfold entry_error.
    destruct (c_schedule c) as [sc|] eqn:Hsc; [|reflexivity].
    destruct (maybe_schedule sc (c_relative c)) as [sc'|x] eqn:Hms; [|reflexivity].
    cbn [conf_schedule set_conf_schedule]. rewrite Hconf.
    rewrite !dict_set_middle by exact Hnotin.
    set (c2 := put_schedule sc' (pop_relative c)).
    set (s2 := set_conf_schedule (done ++ (nm, c2) :: rest) _).
    pose proof (@Entry_of_kwargs_spec env c2 s2 eq_refl) as HE.
    cbn [c2 put_schedule c_unknown c_name c_schedule pop_relative] in HE.
    destruct (c_unknown c) as [|u us].
    2:{ rewrite HE. reflexivity. }
    destruct (c_name c) as [n|] eqn:Hn.
    2:{ rewrite HE. reflexivity. }
    destruct HE as (e & He & Hb & Hc3).
    destruct (Entry_of_kwargs env c2 s2) as [r s3]. cbn [fst snd] in He, Hc3.
    subst r.
    assert (Hacc : dict_set nm e acc = acc ++ [(nm, e)]).
    { apply dict_set_new. rewrite Hkeys. exact Hnotin. }
    rewrite Hacc.
    specialize (IH (done ++ [(nm, c2)]) (acc ++ [(nm, e)]) s3).
    assert (Hconvert : convert_item (nm, c) = (nm, c2)).
    { unfold convert_item, convert_entry. cbn [fst snd]. rewrite Hsc, Hms.
      reflexivity. }
    assert (IH' : match first_error rest with
                  | Some x =>
                      fst (dict_to_entries_loop env rest (acc ++ [(nm, e)]) s3)
                      = Raise x
                  | None =>
                      exists es,
                        fst (dict_to_entries_loop env rest (acc ++ [(nm, e)]) s3)
                        = Ret ((acc ++ [(nm, e)]) ++ es)
                        /\ conf_schedule
                             (snd (dict_to_entries_loop env rest
                                     (acc ++ [(nm, e)]) s3))
                           = (done ++ [(nm, c2)]) ++ map convert_item rest
                        /\ Forall2 built_from es (map convert_item rest)
                  end).
    { apply IH.
      - rewrite Hc3. cbn [s2 conf_schedule set_conf_schedule].
        rewrite <- app_assoc. reflexivity.
      - unfold keys in *. rewrite map_app, <- app_assoc. exact Hnd.
      - unfold keys in *. rewrite !map_app, Hkeys. reflexivity. }
    destruct (first_error rest) as [x|]; [exact IH'|].
    destruct IH' as (es & Hr & Hcf & Hall).
    exists ((nm, e) :: es). rewrite Hr, Hcf, <- !app_assoc.
    cbn [map app]. rewrite Hconvert. repeat split.
    constructor; [|exact Hall].
    destruct Hb as (_ & Hb). split; [reflexivity|exact Hb].
Qed.

Lemma maybe_schedule_raises (sc : sched) (relative : option bool) (x : exn) :
  maybe_schedule sc relative = Raise x -> x = OverflowError.
Proof.
  destruct sc as [n|d|re rel|p]; cbn; try discriminate.
  unfold timedelta_of_seconds. destruct (_ <=? _); [discriminate|].
  intro H. injection H as <-. reflexivity.
Qed.

Lemma maybe_schedule_returns (sc sc' : sched) (relative : option bool) :
  maybe_schedule sc relative = Ret sc' -> forall n, sc' <> SInt n.
Proof.
  destruct sc as [m|d|re rel|p]; cbn.
  - destruct (timedelta_of_seconds m); [|discriminate].
    intro H. injection H as <-. discriminate.
  - intro H. injection H as <-. discriminate.
  - intro H. injection H as <-. discriminate.
  - intro H. injection H as <-. discriminate.
Qed.

Lemma entry_error_kinds (c : ConfEntry) (x : exn) :
  entry_error c = Some x ->
  x = KeyError "schedule" \/ x = OverflowError \/ x = TypeError.
Proof.
  unfold entry_error. destruct (c_schedule c) as [sc|].
  - destruct (maybe_schedule sc (c_relative c)) as [sc'|y] eqn:E.
    + destruct (c_unknown c), (c_name c); intro H; try discriminate H;
        injection H as <-; right; right; reflexivity.
    + intro H. injection H as <-. right. left.
      exact (@maybe_schedule_raises _ _ _ E).
  - intro H. injection H as <-. left. reflexivity.
Qed.

Lemma first_error_kinds (items : list (string * ConfEntry)) (x : exn) :
  first_error items = Some x ->
  x = KeyError "schedule" \/ x = OverflowError \/ x = TypeError.
Proof.
  induction items as [|[nm c] rest IH]; cbn; [discriminate|].
  destruct (entry_error c) as [y|] eqn:E; [|exact IH].
  intro H. injection H as <-. exact (@entry_error_kinds c y E).
Qed.

Lemma dict_to_entries_spec (env : Env) (s : State) :
  NoDup (keys (conf_schedule s)) ->
  match first_error (conf_schedule s) with
  | Some x => fst (dict_to_entries env s) = Raise x
  | None =>
      exists entries,
        fst (dict_to_entries env s) = Ret entries
        /\ conf_schedule (snd (dict_to_entries env s))
           = map convert_item (conf_schedule s)
        /\ Forall2 built_from entries (map convert_item (conf_schedule s))
  end.
Proof.
  intro Hnd. unfold dict_to_entries, bind, gets.
  exact (@dict_to_entries_loop_spec env (conf_schedule s) [] [] s
           eq_refl Hnd eq_refl).
Qed.

Lemma Forall2_built_from_keys (entries : list (string * ScheduleEntry))
    (items : list (string * ConfEntry)) :
  Forall2 built_from entries items -> keys entries = keys items.
Proof.
  induction 1 as [|kv kc es cs [H _] _ IH]; [reflexivity|].
  unfold keys in *. cbn. rewrite H, IH. reflexivity.
Qed.

Lemma keys_convert (items : list (string * ConfEntry)) :
  keys (map convert_item items) = keys items.
Proof.
  unfold keys. rewrite map_map. apply map_ext. intros [k c]. reflexivity.
Qed.

Lemma first_error_none (items : list (string * ConfEntry)) :
  first_error items = None ->
  Forall (fun kc => entry_error (snd kc) = None) items.
Proof.
  induction items as [|[nm c] rest IH]; cbn; [constructor|].
  destruct (entry_error c) eqn:E; [discriminate|].
  intro H. constructor; [exact E|exact (IH H)].
Qed.

(** X7: The construction of a scheduler changes the global configuration in
    place: when it returns, every configuration entry has lost its
    ["relative"] key and holds, under ["schedule"], what [maybe_schedule]
    made of its schedule, which is never an int any more; keys and order
    are as before. *)
Theorem construction_rewrites_configuration (env : Env)
    (arg : option (list (string * ScheduleEntry))) (mi : option Z) (s : State)
    (Hdict : NoDup (keys (conf_schedule s)))
    (Hok : fst (Scheduler_init env arg mi s) = Ret tt) :
  let conf' := conf_schedule (snd (Scheduler_init env arg mi s)) in
  conf' = map convert_item (conf_schedule s)
  /\ keys conf' = keys (conf_schedule s)
  /\ Forall (fun kc =>
               c_relative (snd kc) = None
               /\ exists sc, c_schedule (snd kc) = Some sc
                             /\ forall n, sc <> SInt n) conf'.
Proof.
  intro conf'. subst conf'. rewrite Scheduler_init_eq in *.
  pose proof (@dict_to_entries_spec env s Hdict) as Hs.
  pose proof (@first_error_none (conf_schedule s)) as Hnone.
  destruct (first_error (conf_schedule s)) as [x|].
  - destruct (dict_to_entries env s) as [[entries|y] s1]; cbn [fst] in Hs, Hok;
      [discriminate Hs|discriminate Hok].
  - destruct Hs as (entries & Hr & Hc & _). specialize (Hnone eq_refl).
    destruct (dict_to_entries env s) as [[entries'|y] s1]; cbn [fst snd] in *;
      [|discriminate Hr].
    cbn [conf_schedule set_data set_max_interval]. rewrite Hc.
    split; [reflexivity|]. split; [apply keys_convert|].
    rewrite Forall_forall in *. intros kc' Hin.
    apply in_map_iff in Hin. destruct Hin as ([nm c] & <- & Hin).
    specialize (Hnone (nm, c) Hin). cbn [snd] in Hnone.
    unfold convert_item, convert_entry, entry_error in *. cbn [fst snd].
    destruct (c_schedule c) as [sc|]; [|discriminate Hnone].
    destruct (maybe_schedule sc (c_relative c)) as [sc'|y] eqn:E;
      [|discriminate Hnone].
    split; [reflexivity|]. exists sc'. split; [reflexivity|].
    exact (@maybe_schedule_returns _ _ _ E).
Qed.

Lemma construction_rewrites_configuration_witness :
  conf_schedule (snd (Scheduler_init example_env None None
                        (mkState [] 0 [] integer_conf 0 0 [])))
  = map convert_item integer_conf
  /\ keys (conf_schedule (snd (Scheduler_init example_env None None
                                 (mkState [] 0 [] integer_conf 0 0 []))))
     = ["every-30s"]
  /\ Forall (fun kc =>
               c_relative (snd kc) = None
               /\ exists sc, c_schedule (snd kc) = Some sc
                             /\ forall n, sc <> SInt n)
            (conf_schedule (snd (Scheduler_init example_env None None
                                   (mkState [] 0 [] integer_conf 0 0 [])))).
Proof.
  apply (@construction_rewrites_configuration example_env None None
           (mkState [] 0 [] integer_conf 0 0 [])).
  - repeat constructor. cbn. tauto.
  - reflexivity.
Defined.

(** X8: An int schedule of [n] seconds becomes the timedelta of [n] seconds
    exactly when that timedelta exists, that is when [n] seconds are at
    least -999999999 days and less than 1000000000 days; otherwise
    [maybe_schedule] raises [OverflowError]. *)
Theorem maybe_schedule_integer_range (n : Z) (relative : option bool) :
  (-999999999 * 86400 <= n < 1000000000 * 86400 ->
   maybe_schedule (SInt n) relative = Ret (STimedelta (n * 1000000)))
  /\ (n < -999999999 * 86400 \/ 1000000000 * 86400 <= n ->
      maybe_schedule (SInt n) relative = Raise OverflowError).
Proof.
  unfold maybe_schedule, timedelta_of_seconds, timedelta_max_days.
  pose proof (Z.div_mod n 86400 ltac:(lia)) as Hdiv.
  pose proof (Z.mod_pos_bound n 86400 ltac:(lia)) as Hmod.
  split; intro H.
  - destruct (Z.leb_spec (Z.abs (n / 86400)) 999999999) as [_|E];
      [reflexivity|].
    exfalso. lia.
  - destruct (Z.leb_spec (Z.abs (n / 86400)) 999999999) as [E|_];
      [|reflexivity].
    exfalso. lia.
Qed.

Lemma maybe_schedule_integer_range_witness :
  maybe_schedule (SInt 30) None = Ret (STimedelta (30 * 1000000))
  /\ maybe_schedule (SInt (1000000000 * 86400)) None = Raise OverflowError.
Proof.
  split.
  - apply (proj1 (maybe_schedule_integer_range 30 None)). lia.
  - apply (proj2 (maybe_schedule_integer_range (1000000000 * 86400) None)). lia.
Defined.

(** * Further properties of the clock service *)

Lemma scheduler_eq (env : Env) (p : Process) :
  scheduler env p =
  if _scheduler (service p) then (Ret tt, p)
  else
    match Scheduler_init env (cs_schedule (service p))
                         (Some (cs_max_interval (service p))) (world p) with
    | (Ret _, w) =>
        (Ret tt, on_service (set_scheduler true) (on_world (fun _ => w) p))
    | (Raise x, w) => (Raise x, on_world (fun _ => w) p)
    end.
Proof.
  unfold scheduler, bind, get. destruct (_scheduler (service p)); [reflexivity|].
  rewrite lift_eq.
  destruct (Scheduler_init env _ _ (world p)) as [[[]|x] w]; reflexivity.
Qed.

(** X9: The scheduler of a service is made on first use and then kept: once
    the property has answered, asking again changes nothing, whatever
    has become of the configuration; when the construction raises, the
    service is left without a scheduler and the next use tries again. *)
Theorem scheduler_is_made_once (env : Env) (p : Process) :
  (fst (scheduler env p) = Ret tt ->
   _scheduler (service (snd (scheduler env p))) = true
   /\ forall conf,
        scheduler env (on_world (set_conf_schedule conf) (snd (scheduler env p)))
        = (Ret tt, on_world (set_conf_schedule conf) (snd (scheduler env p))))
  /\ (forall x,
        fst (scheduler env p) = Raise x ->
        _scheduler (service (snd (scheduler env p))) = false
        /\ fst (Scheduler_init env (cs_schedule (service p))
                               (Some (cs_max_interval (service p))) (world p))
           = Raise x).
Proof.
  rewrite scheduler_eq.
  destruct (_scheduler (service p)) eqn:E.
  - split.
    + intros _. cbn [snd]. split; [exact E|].
      intro conf. rewrite scheduler_eq. cbn [service on_world]. rewrite E.
      reflexivity.
    + intros x H. discriminate H.
  - destruct (Scheduler_init env _ _ (world p)) as [[[]|x] w]; cbn [fst snd].
    + split; [|intros x H; discriminate H].
      intros _. split; [reflexivity|]. intro conf. rewrite scheduler_eq.
      reflexivity.
    + split; [intro H; discriminate H|].
      intros y H. injection H as <-. split; [exact E|reflexivity].
Qed.

Lemma scheduler_is_made_once_witness :
  _scheduler (service (snd (scheduler example_env example_process))) = true
  /\ forall conf,
       scheduler example_env
         (on_world (set_conf_schedule conf) (snd (scheduler example_env example_process)))
       = (Ret tt,
          on_world (set_conf_schedule conf) (snd (scheduler example_env example_process))).
Proof.
  apply (proj1 (scheduler_is_made_once example_env example_process)).
  reflexivity.
Defined.

Lemma tick_max_interval (env : Env) (s : State) :
  max_interval (snd (tick env s)) = max_interval s.
Proof.
  apply (@tick_rule env (fun s' => max_interval s' = max_interval s)
                    (fun s' => max_interval s' = max_interval s)).
  - reflexivity.
  - intros k e s' H _. rewrite tick_body_max_interval. exact H.
  - intros s1 H. exact H.
Qed.

Lemma sleeps_within_app (m : Z) (a b : list event) :
  sleeps_within m a -> sleeps_within m b -> sleeps_within m (a ++ b).
Proof. intros Ha Hb. apply Forall_app. split; assumption. Qed.

Lemma tick_events_sleeps_within (env : Env) (m : Z) (s : State) :
  sleeps_within m (tick_events env s).
Proof.
  apply (@tick_events_rule env (sleeps_within m)).
  - apply sleeps_within_app.
  - repeat constructor.
  - repeat constructor.
  - intros e s'. unfold body_events.
    destruct (due_now env e s') as [[[|] rem]|]; try (repeat constructor).
    destruct (send_task env _ _ _ _ _) as [id|x]; [repeat constructor|].
    destruct (is_Exception x); repeat constructor.
Qed.

Lemma tick_le_max_interval (env : Env) (s : State) (v : Z) :
  fst (tick env s) = Ret v -> v <= max_interval s.
Proof.
  intro H. apply tick_returns_min in H. apply py_min_spec in H.
  destruct H as [_ H]. rewrite Forall_forall in H. apply H.
  apply in_or_app. right. left. reflexivity.
Qed.

Lemma shutdown_isSet_eq (env : Env) (p : Process) :
  shutdown_isSet env p =
  let p0 := set_shutdown_tests (S (shutdown_tests p)) p in
  if stop_requested env (shutdown_tests p)
  then (Ret true,
        on_service (set_shutdown true)
          (on_world (emit (EvLog LInfo "Celerybeat: Shutting down...")) p0))
  else (Ret (_shutdown (service p)), p0).
Proof.
  unfold shutdown_isSet, bind, get, modify, gets, stop, bind, modify.
  cbn [shutdown_tests set_shutdown_tests].
  destruct (stop_requested env (shutdown_tests p)); [|reflexivity].
  rewrite lift_eq. reflexivity.
Qed.

Lemma time_sleep_eq (env : Env) (interval : Z) (p : Process) :
  time_sleep env interval p =
  (match sleep_raises env (sleeps p) with
   | None => Ret tt
   | Some x => Raise x
   end,
   on_world (emit (EvSleep interval)) (set_sleeps (S (sleeps p)) p)).
Proof.
  unfold time_sleep, bind, get, modify.
  destruct (sleep_raises env (sleeps p)); reflexivity.
Qed.

(** One turn of the loop when the scheduler exists. *)
Lemma loop_body_eq (env : Env) (p : Process) :
  _scheduler (service p) = true ->
  loop_body env p =
  match tick env (world p) with
  | (Ret interval, w) => time_sleep env interval (on_world (fun _ => w) p)
  | (Raise x, w) => (Raise x, on_world (fun _ => w) p)
  end.
Proof.
  intro H. unfold loop_body, bind. rewrite scheduler_eq, H, lift_eq.
  destruct (tick env (world p)) as [[interval|x] w]; reflexivity.
Qed.

Lemma prelude_inv_refl (p : Process) : prelude_inv p p.
Proof.
  repeat split. exists []. rewrite app_nil_r. split; reflexivity.
Qed.

Lemma prelude_inv_emit (p q : Process) (ev : event) :
  is_quiet ev = true -> prelude_inv p q -> prelude_inv p (on_world (emit ev) q).
Proof.
  intros Hq (H1 & H2 & H3 & H4 & evs & Ht & Hall).
  repeat split; try assumption.
  exists (evs ++ [ev]). cbn [world on_world trace emit].
  rewrite Ht, app_assoc, forallb_app, Hall. cbn. rewrite Hq.
  split; reflexivity.
Qed.

Lemma scheduler_prelude_inv (env : Env) (p : Process) :
  preserves (prelude_inv p) (scheduler env).
Proof.
  intros q H. rewrite scheduler_eq.
  destruct (_scheduler (service q)); [exact H|].
  pose proof (Scheduler_init_trace env (cs_schedule (service q))
                (Some (cs_max_interval (service q))) (world q)) as Ht.
  destruct (Scheduler_init env _ _ (world q)) as [[[]|x] w]; cbn [snd] in *;
    destruct H as (H1 & H2 & H3 & H4 & evs & Hq & Hall);
    repeat split; try assumption;
    exists evs; cbn [world on_world on_service]; rewrite Ht; split; assumption.
Qed.

Lemma start_prelude_inv (env : Env) (embedded_process : bool) (p : Process) :
  prelude_inv p (snd (start_prelude env embedded_process p)).
Proof.
  assert (L : forall lv msg, preserves (prelude_inv p) (lift (log lv msg))).
  { intros lv msg. apply preserves_lift. intros q H.
    exact (@prelude_inv_emit p q (EvLog lv msg) eq_refl H). }
  assert (H : preserves (prelude_inv p) (start_prelude env embedded_process)).
  { unfold start_prelude.
    apply preserves_bind; [apply L|intros _].
    apply preserves_bind; [apply scheduler_prelude_inv|intros _].
    apply preserves_bind; [apply L|intros _].
    destruct embedded_process; [|apply preserves_ret].
    apply preserves_modify. intros q H. apply prelude_inv_emit; [reflexivity|exact H]. }
  apply H. apply prelude_inv_refl.
Qed.

(** Once [start] has come to its loop, the scheduler exists; when the
    service had none before, its maximum is that of the service, or the
    configured default when that is 0. *)
Lemma start_prelude_scheduler (env : Env) (embedded_process : bool) (p p1 : Process) :
  start_prelude env embedded_process p = (Ret tt, p1) ->
  _scheduler (service p) = false ->
  _scheduler (service p1) = true
  /\ max_interval (world p1)
     = max_interval_or_default env (Some (cs_max_interval (service p))).
Proof.
  intros H Hfresh. unfold start_prelude, bind in H.
  rewrite lift_eq in H. cbn [fst snd] in H. rewrite scheduler_eq in H.
  cbn [service on_world world] in H. rewrite Hfresh in H.
  rewrite Scheduler_init_eq in H.
  destruct (dict_to_entries env _) as [[entries|x] s1]; [|discriminate H].
  rewrite lift_eq in H. cbn [fst snd] in H.
  destruct embedded_process; cbn in H; injection H as <-; split; reflexivity.
Qed.

Lemma quiet_sleeps_within (m : Z) (evs : list event) :
  forallb is_quiet evs = true -> sleeps_within m evs.
Proof.
  intro H. unfold sleeps_within. rewrite Forall_forall. intros ev Hin.
  rewrite forallb_forall in H. specialize (H ev Hin).
  destruct ev; try exact I. discriminate H.
Qed.

Lemma quiet_no_connection (evs : list event) :
  forallb is_quiet evs = true -> filter is_connection evs = [].
Proof.
  induction evs as [|ev evs IH]; [reflexivity|].
  cbn. intro H. apply andb_true_iff in H. destruct H as [H1 H2].
  destruct ev; try discriminate H1; cbn; exact (IH H2).
Qed.

Lemma shutdown_isSet_running (env : Env) (m : Z) (p : Process) :
  running_inv m p -> running_inv m (snd (shutdown_isSet env p)).
Proof.
  intros (H1 & H2 & H3). rewrite shutdown_isSet_eq. cbn zeta.
  destruct (stop_requested env (shutdown_tests p)); cbn [snd].
  - repeat split; try assumption. cbn [world on_service on_world trace emit
                                        set_shutdown_tests].
    apply sleeps_within_app; [exact H3|repeat constructor].
  - repeat split; assumption.
Qed.

Lemma loop_body_running (env : Env) (m : Z) (p : Process) :
  running_inv m p -> running_inv m (snd (loop_body env p)).
Proof.
  intros (H1 & H2 & H3). rewrite (loop_body_eq env p H1).
  pose proof (tick_max_interval env (world p)) as Hm.
  pose proof (tick_trace env (world p)) as Ht.
  pose proof (@tick_le_max_interval env (world p)) as Hle.
  pose proof (tick_events_sleeps_within env m (world p)) as Hs.
  destruct (tick env (world p)) as [[interval|x] w]; cbn [fst snd] in *.
  - rewrite time_sleep_eq. cbn [snd]. split; [exact H1|].
    split; [cbn; congruence|].
    cbn [world on_world set_sleeps trace emit]. rewrite Ht.
    apply sleeps_within_app; [apply sleeps_within_app; assumption|].
    constructor; [|constructor]. rewrite <- H2. apply Hle. reflexivity.
  - split; [exact H1|]. split; [cbn; congruence|].
    cbn [world on_world]. rewrite Ht. apply sleeps_within_app; assumption.
Qed.

Lemma start_loop_running (env : Env) (m : Z) (fuel : nat) :
  forall p r p',
    running_inv m p -> start_loop env fuel p = Some (r, p') -> running_inv m p'.
Proof.
  induction fuel as [|fuel IH]; intros p r p' HJ H; cbn [start_loop] in H;
    [discriminate H|].
  pose proof (shutdown_isSet_running env HJ) as H1.
  destruct (shutdown_isSet env p) as [[[|]|x] p1]; cbn [snd] in H1.
  - injection H as <- <-. exact H1.
  - pose proof (loop_body_running env H1) as H2.
    destruct (loop_body env p1) as [[[]|x] p2]; cbn [snd] in H2.
    + exact (IH _ _ _ H2 H).
    + injection H as <- <-. exact H2.
  - injection H as <- <-. exact H1.
Qed.

(** From the loop to the end of [start]: only calls of [sync] follow. *)
Lemma start_finish_sleeps_within (m : Z) (left : outcome unit) (p1 p2 : Process) :
  sleeps_within m (trace (world p2)) ->
  sleeps_within m
    (trace (world (snd (try_finally
                          (try_except (fun _ => (left, p2)) is_interrupt
                                      (fun _ => call_sync))
                          call_sync p1)))).
Proof.
  intro H. unfold try_finally, try_except, try_except_else.
  assert (Hs : forall q, sleeps_within m (trace (world q)) ->
                         sleeps_within m (trace (world (snd (call_sync q))))).
  { intros q Hq. rewrite call_sync_eq.
    cbn [snd world on_service on_world trace emit].
    apply sleeps_within_app; [exact Hq|repeat constructor]. }
  destruct left as [[]|x].
  - unfold ret. specialize (Hs p2 H).
    destruct (call_sync p2) as [[[]|y] q]; exact Hs.
  - destruct (is_interrupt x).
    + pose proof (Hs p2 H) as H1.
      destruct (call_sync p2) as [r q]. cbn [snd] in H1.
      specialize (Hs q H1). destruct (call_sync q) as [[[]|y] q']; exact Hs.
    + specialize (Hs p2 H). destruct (call_sync p2) as [[[]|y] q]; exact Hs.
Qed.

Lemma start_sleeps_within (env : Env) (fuel : nat) (embedded_process : bool)
    (p : Process) (r : outcome unit) (p' : Process) :
  _scheduler (service p) = false ->
  sleeps_within (max_interval_or_default env (Some (cs_max_interval (service p))))
                (trace (world p)) ->
  start env fuel embedded_process p = Some (r, p') ->
  sleeps_within (max_interval_or_default env (Some (cs_max_interval (service p))))
                (trace (world p')).
Proof.
  set (m := max_interval_or_default env (Some (cs_max_interval (service p)))).
  intros Hfresh Hpast H. unfold start in H.
  pose proof (start_prelude_inv env embedded_process p)
    as (_ & _ & _ & _ & evs & Ht & Hq).
  pose proof (@start_prelude_scheduler env embedded_process p) as Hsch.
  destruct (start_prelude env embedded_process p) as [[[]|x] p1]; cbn [snd] in *.
  - destruct (Hsch p1 eq_refl Hfresh) as [Hs Hm].
    assert (HJ : running_inv m p1).
    { repeat split; try assumption. rewrite Ht.
      apply sleeps_within_app; [exact Hpast|apply quiet_sleeps_within; exact Hq]. }
    destruct (start_loop env fuel p1) as [[left p2]|] eqn:El; [|discriminate H].
    pose proof (start_loop_running env fuel HJ El) as (_ & _ & H2).
    injection H as H.
    pose proof (@start_finish_sleeps_within m left p1 p2 H2) as HF.
    rewrite H in HF. exact HF.
  - injection H as <- <-. rewrite Ht.
    apply sleeps_within_app; [exact Hpast|apply quiet_sleeps_within; exact Hq].
Qed.

(** X10: A service never sleeps longer than its maximum interval: when
    [start()] of a service that has made no scheduler yet ends, every
    [time.sleep] it made lasted at most the service's [max_interval], or
    at most the configured default when that is 0. *)
Theorem service_never_oversleeps (env : Env) (fuel : nat) (embedded_process : bool)
    (p : Process) (r : outcome unit) (p' : Process)
    (Hfresh : _scheduler (service p) = false)
    (Hpast : trace (world p) = [])
    (Hends : start env fuel embedded_process p = Some (r, p')) :
  Forall (fun ev => match ev with
                    | EvSleep interval =>
                        interval <= if cs_max_interval (service p) =? 0
                                    then CELERYBEAT_MAX_LOOP_INTERVAL env
                                    else cs_max_interval (service p)
                    | _ => True
                    end)
         (trace (world p')).
Proof.
  apply (@start_sleeps_within env fuel embedded_process p r p' Hfresh);
    [|exact Hends].
  rewrite Hpast. constructor.
Qed.

Lemma service_never_oversleeps_witness :
  Forall (fun ev => match ev with
                    | EvSleep interval => interval <= 300
                    | _ => True
                    end)
         (trace (world example_stopped))
  /\ In (EvSleep 300) (trace (world example_stopped)).
Proof.
  split.
  - apply (@service_never_oversleeps example_env 3 false example_process
             (Ret tt) example_stopped); vm_compute; reflexivity.
  - vm_compute. tauto.
Defined.

(** X11: A service whose shutdown flag is set before [start()] makes no tick
    and no sleep: [start()] finds the flag at the first test, opens no
    connection, calls [sync()] and returns. *)
Theorem stopped_service_never_ticks (env : Env) (fuel : nat)
    (embedded_process : bool) (p : Process)
    (Hstop : _shutdown (service p) = true)
    (Hentered : fst (start_prelude env embedded_process p) = Ret tt) :
  exists p',
    start env (S fuel) embedded_process p = Some (Ret tt, p')
    /\ _stopped (service p') = true
    /\ sleeps p' = sleeps p
    /\ shutdown_tests p' = S (shutdown_tests p)
    /\ filter is_connection (trace (world p'))
       = filter is_connection (trace (world p)).
Proof.
  unfold start.
  pose proof (start_prelude_inv env embedded_process p)
    as (H1 & H2 & H3 & _ & evs & Ht & Hq).
  destruct (start_prelude env embedded_process p) as [[[]|x] p1];
    cbn [fst snd] in *; [|discriminate Hentered].
  cbn [start_loop]. rewrite shutdown_isSet_eq. cbn zeta.
  rewrite H1, Hstop.
  assert (Hc : filter is_connection (trace (world p1))
               = filter is_connection (trace (world p))).
  { rewrite Ht, filter_app, (quiet_no_connection _ Hq), app_nil_r. reflexivity. }
  destruct (stop_requested env (shutdown_tests p1));
    unfold try_finally, try_except, try_except_else, ret;
    rewrite call_sync_eq; eexists; (split; [reflexivity|]);
    cbn [service world sleeps shutdown_tests on_service on_world
         set_shutdown_tests sync set_stopped set_shutdown _stopped trace emit];
    rewrite ?filter_app, Hc, H2, H3; cbn; rewrite ?app_nil_r;
    repeat split; reflexivity.
Qed.

Lemma stopped_service_never_ticks_witness :
  exists p',
    start example_env 1 false
          (on_service (set_shutdown true) example_process) = Some (Ret tt, p')
    /\ _stopped (service p') = true
    /\ sleeps p' = O
    /\ shutdown_tests p' = 1%nat
    /\ filter is_connection (trace (world p')) = [].
Proof.
  apply (@stopped_service_never_ticks example_env 0 false
           (on_service (set_shutdown true) example_process));
    reflexivity.
Defined.

(** * What tick raises *)

Lemma body_outcome_raise_kind (env : Env) (e : ScheduleEntry) (s : State) (x : exn) :
  body_outcome env e s = Raise x ->
  (x = AttributeError /\ has_is_due e = false)
  \/ (is_Exception x = false
      /\ exists k n a kw o, send_task env k n a kw o = SendRaises x).
Proof.
  unfold body_outcome, due_now, has_is_due.
  destruct (schedule e) as [n|d|re rel|p].
  - intro H. injection H as <-. left. split; reflexivity.
  - intro H. injection H as <-. left. split; reflexivity.
  - destruct (schedule_is_due env re rel _ _) as [[|] rem]; [|discriminate].
    destruct (send_task env _ _ _ _ _) as [id|y] eqn:E; [discriminate|].
    destruct (is_Exception y) eqn:Ey; [discriminate|].
    intro H. injection H as <-. right. split; [exact Ey|].
    do 5 eexists. exact E.
  - destruct (p _ _) as [[|] rem]; [|discriminate].
    destruct (send_task env _ _ _ _ _) as [id|y] eqn:E; [discriminate|].
    destruct (is_Exception y) eqn:Ey; [discriminate|].
    intro H. injection H as <-. right. split; [exact Ey|].
    do 5 eexists. exact E.
Qed.


(** * Every entry is served *)

Lemma due_now_answer_at (env : Env) (e : ScheduleEntry) (s : State) :
  due_now env e s = answer_at env e (clock_reads s).
Proof. unfold due_now, answer_at. destruct (schedule e); reflexivity. Qed.

Lemma served_app (env : Env) (a b : list event) (es1 es2 : list ScheduleEntry) :
  served env a es1 -> served env b es2 -> served env (a ++ b) (es1 ++ es2).
Proof.
  intros Ha Hb. induction Ha as [|e k rem cs es Hk _ IH|e k rem cs es Hk _ IH].
  - exact Hb.
  - cbn. apply (served_idle e k Hk IH).
  - cbn. apply (served_due e k Hk IH).
Qed.

Lemma served_body (env : Env) (e : ScheduleEntry) (s : State) :
  has_is_due e = true -> served env (calls (body_events env e s)) [e].
Proof.
  intro He. rewrite calls_body_events.
  pose proof (due_now_answer_at env e s) as Hd.
  destruct (due_now env e s) as [[[|] rem]|].
  - apply (served_due e (clock_reads s)); [symmetry; exact Hd|constructor].
  - apply (served_idle e (clock_reads s)); [symmetry; exact Hd|constructor].
  - exfalso. unfold answer_at, has_is_due in *.
    destruct (schedule e); discriminate.
Qed.

Lemma firstn_succ_nth {A} (l : list A) :
  forall n x, nth_error l n = Some x -> firstn (S n) l = firstn n l ++ [x].
Proof.
  induction l as [|y l IH]; intros n x H.
  - destruct n; discriminate H.
  - destruct n as [|n].
    + cbn in H. injection H as ->. reflexivity.
    + cbn in H. change (firstn (S (S n)) (y :: l)) with (y :: firstn (S n) l).
      rewrite (IH n x H). reflexivity.
Qed.

Lemma own_keyed_names_are_keys (d : list (string * ScheduleEntry)) :
  own_keyed d -> names_are_keys d = true.
Proof.
  intros [_ Hn]. unfold names_are_keys. apply forallb_forall.
  intros [k e] Hin. rewrite Forall_forall in Hn.
  rewrite (Hn (k, e) Hin). cbn [fst snd]. apply has_key_In.
  unfold keys. change k with (fst (k, e)). apply in_map. exact Hin.
Qed.

(** When every entry is stored under its own name, every schedule is a
    policy object and the transport fails only by exceptions, the scan of
    a tick serves every entry of the mapping, in the order of the
    mapping. *)
Lemma tick_serves_every_entry (env : Env) (s : State) :
  own_keyed (data s) -> all_have_is_due (data s) = true -> catchable env ->
  served env (calls (tick_events env s)) (map snd (data s)).
Proof.
  intros [Hnd Hnames] Hdue Hc.
  set (entries := map snd (data s)).
  set (I := fun (pos : nat) (s' : State) =>
              keys (data s') = keys (data s)
              /\ (forall i, (pos <= i)%nat ->
                            nth_error (data s') i = nth_error (data s) i)
              /\ exists evs,
                   trace s' = trace s ++ EvConnect :: evs
                   /\ served env (calls evs) (firstn pos entries)).
  assert (Hbody : forall pos k e s',
             I pos s' -> List.length (data s') = List.length (data s) ->
             nth_error (data s') pos = Some (k, e) ->
             match tick_body env e s' with
             | (Ret _, s'') => I (S pos) s''
             | (Raise _, _) => False
             end).
  { intros pos k e s' (Hk & Hpos & evs & Ht & Hs) _ N.
    assert (N0 : nth_error (data s) pos = Some (k, e)).
    { rewrite <- (Hpos pos (le_n _)). exact N. }
    assert (Hname : name e = k).
    { rewrite Forall_forall in Hnames.
      exact (Hnames (k, e) (nth_error_In _ _ N0)). }
    assert (He : has_is_due e = true).
    { unfold all_have_is_due in Hdue. rewrite forallb_forall in Hdue.
      exact (Hdue (k, e) (nth_error_In _ _ N0)). }
    assert (Hnd' : NoDup (keys (data s'))) by (rewrite Hk; exact Hnd).
    pose proof (tick_body_outcome env e s') as Ho.
    rewrite (@body_outcome_ret env e s' Hc He) in Ho.
    pose proof (tick_body_data env e s') as Hda.
    pose proof (tick_body_trace env e s') as Htr.
    destruct (tick_body env e s') as [[[]|x] s'']; cbn [fst snd] in *;
      [|discriminate Ho].
    assert (Hdata : keys (data s'') = keys (data s)
                    /\ forall i, (S pos <= i)%nat ->
                                 nth_error (data s'') i = nth_error (data s) i).
    { rewrite Hda. unfold body_data.
      destruct (due_now env e s') as [[[|] rem]|];
        try (split; [exact Hk|intros i Hi; apply Hpos; lia]).
      rewrite Hname. split.
      - rewrite keys_dict_set, has_key_In; [exact Hk|].
        rewrite Hk. eapply nth_error_key_in; eassumption.
      - intros i Hi.
        rewrite (@nth_error_dict_set_other _ (data s') Hnd' pos k e _ i N) by lia.
        apply Hpos. lia. }
    destruct Hdata as [Hk' Hpos'].
    split; [exact Hk'|]. split; [exact Hpos'|].
    exists (evs ++ body_events env e s').
    rewrite Htr, Ht. split.
    - rewrite <- app_assoc. reflexivity.
    - rewrite calls_app.
      rewrite (@firstn_succ_nth _ entries pos e).
      + apply served_app; [exact Hs|apply served_body; exact He].
      + unfold entries. rewrite nth_error_map, N0. reflexivity. }
  assert (H0 : I O (tick_started s)).
  { split; [reflexivity|]. split; [reflexivity|].
    exists []. split; [reflexivity|constructor]. }
  pose proof (@for_itervalues_rule (List.length (data s)) (tick_body env)
                I (fun _ _ => False) Hbody
                (List.length (data s)) O (tick_started s) H0 eq_refl) as H.
  assert (Hfin : forall s1, I (List.length (data s)) s1 ->
                   served env (calls (skipn (List.length (trace s))
                                            (trace (emit EvClose s1))))
                          entries).
  { intros s1 (_ & _ & evs & Ht & Hs). cbn [trace emit].
    rewrite Ht, <- app_assoc, skipn_length_app.
    change (EvConnect :: evs) with ([EvConnect] ++ evs).
    rewrite <- app_assoc, !calls_app. cbn [calls filter is_call app].
    rewrite app_nil_r.
    unfold entries in *. rewrite firstn_all2 in Hs; [exact Hs|].
    rewrite length_map. apply le_n. }
  unfold tick_events. rewrite tick_eq. unfold tick_finish.
  destruct (for_itervalues _ _ _ _ _) as [[[]|x] s1].
  - cbn [snd]. apply Hfin. apply H.
  - exfalso. destruct H as [(_ & Hlen & p & _ & (Hk & _))|[]].
    apply Hlen. rewrite <- (length_map fst (data s1)).
    fold (keys (data s1)). rewrite Hk. unfold keys. apply length_map.
Qed.

(** * What a tick returns, and whom it serves *)

(** C1 (amended): whenever [tick()] returns, it returns the least of
    [max_interval] and the remaining values that the calls of [is_due()]
    of that tick reported and that are true (not 0), due or not; a
    remaining value of 0 is not collected.  With no entries it returns
    [max_interval].  When every entry is stored under its own name (no
    key twice), every schedule is a policy object and the transport fails
    only by exceptions, [tick()] does return, and it has called
    [is_due()] exactly once on each entry of the mapping, in the
    iteration order of the mapping, each answer that the entry is due
    followed by the dispatch of that entry. *)
Theorem tick_returns_least_true_remaining (env : Env) (s : State) :
  (forall v,
      fst (tick env s) = Ret v ->
      py_min (filter true_value (reported env s) ++ [max_interval s]) = Ret v)
  /\ (data s = [] -> fst (tick env s) = Ret (max_interval s))
  /\ (own_keyed (data s) ->
      all_have_is_due (data s) = true ->
      catchable env ->
      exists v,
        fst (tick env s) = Ret v
        /\ served env (calls (tick_events env s)) (map snd (data s))
        /\ List.length (reported env s) = List.length (data s)
        /\ py_min (filter true_value (reported env s) ++ [max_interval s]) = Ret v).
Proof.
  split; [intro v; apply tick_returns_min|].
  split; [apply tick_empty|].
  intros Hk Hd Hc.
  destruct (@tick_visits_all env s (own_keyed_names_are_keys Hk) Hd Hc)
    as (v & evs & Hv & Ht & Hl & Hm & _).
  exists v. split; [exact Hv|].
  split; [exact (@tick_serves_every_entry env s Hk Hd Hc)|].
  unfold reported. rewrite (@tick_events_eq env s evs Ht).
  split; assumption.
Qed.

Lemma tick_returns_least_true_remaining_witness :
  exists v,
    fst (tick example_env own_names_state) = Ret v
    /\ served example_env (calls (tick_events example_env own_names_state))
              (map snd (data own_names_state))
    /\ List.length (reported example_env own_names_state) = 2%nat
    /\ py_min (filter true_value (reported example_env own_names_state) ++ [300])
       = Ret v.
Proof.
  apply (proj2 (proj2 (tick_returns_least_true_remaining example_env own_names_state))).
  - split.
    + constructor; [cbn; intros [H|[]]; discriminate H|].
      constructor; [cbn; intros []|constructor].
    + repeat constructor.
  - reflexivity.
  - exact example_env_catchable.
Defined.

(** * A failed dispatch *)



(** * The names of the mapping *)

(** C6 on the code: the scheduler built from the configuration
    [{"every-minute": {"name": "tasks.add", ...}}] holds one entry, under
    the key ["every-minute"], and that entry is named ["tasks.add"], which
    is no key.  One tick reserves the due entry under its name: the
    mapping then has two keys, the new one being ["tasks.add"]. *)
Theorem tick_inserts_task_name :
  List.length (data renamed_state) = 1%nat
  /\ option_map name (dict_get "every-minute" (data renamed_state))
     = Some "tasks.add"
  /\ has_key "tasks.add" (data renamed_state) = false
  /\ List.length (data (run_operations example_env [OpTick] renamed_state)) = 2%nat
  /\ has_key "every-minute"
             (data (run_operations example_env [OpTick] renamed_state)) = true
  /\ has_key "tasks.add"
             (data (run_operations example_env [OpTick] renamed_state)) = true.
Proof. repeat split; reflexivity. Qed.

Lemma extends_has_key (ks : list string) (d : list (string * ScheduleEntry))
    (k : string) :
  extends ks d -> existsb (String.eqb k) ks = true -> has_key k d = true.
Proof.
  intros [extra H] Hk. unfold has_key. rewrite H, existsb_app, Hk. reflexivity.
Qed.

(** Over every sequence of [tick()], [maybe_due()] and [reserve()] the
    mapping never loses a key.  When every stored entry bears a name that
    is a key of the mapping, and so does every entry handed to
    [maybe_due()] and [reserve()], the mapping keeps its keys: entries
    are only replaced under the keys that are there. *)
Lemma ticking_keeps_the_names (env : Env) (ops : list operation) (s : State) :
  (forall k,
      has_key k (data s) = true ->
      has_key k (data (run_operations env ops s)) = true)
  /\ (names_are_keys (data s) = true ->
      forallb (argument_known (keys (data s))) ops = true ->
      (forall k, has_key k (data (run_operations env ops s)) = has_key k (data s))
      /\ List.length (data (run_operations env ops s)) = List.length (data s)
      /\ names_are_keys (data (run_operations env ops s)) = true).
Proof.
  split.
  - intros k Hk.
    apply (@extends_has_key (keys (data s))); [|exact Hk].
    apply (@run_operations_extends env (keys (data s)) ops s).
    exists []. rewrite app_nil_r. reflexivity.
  - intros Hn Hops.
    destruct (@run_operations_settled env (keys (data s)) ops Hops s)
      as [Hk Hn']; [split; [reflexivity|exact Hn]|].
    split; [intro k; unfold has_key; rewrite Hk; reflexivity|].
    split; [|exact Hn'].
    rewrite <- (length_map fst (data (run_operations env ops s))).
    fold (keys (data (run_operations env ops s))). rewrite Hk.
    unfold keys. apply length_map.
Qed.

(** * The entries a scheduler is made with *)

Lemma Forall2_built_from_lookup (entries : list (string * ScheduleEntry))
    (items : list (string * ConfEntry)) :
  Forall2 built_from entries items ->
  forall k,
    match dict_get k items with
    | Some c => exists e, dict_get k entries = Some e /\ built_from (k, e) (k, c)
    | None => dict_get k entries = None
    end.
Proof.
  induction 1 as [|[k1 e1] [k2 c2] es cs Hb _ IH]; intro k; [reflexivity|].
  assert (E : k1 = k2) by exact (proj1 Hb). subst k2.
  cbn [dict_get]. destruct (String.eqb k k1).
  - exists e1. split; [reflexivity|].
    destruct Hb as [_ Hb]. split; [reflexivity|exact Hb].
  - apply IH.
Qed.

(** X6: How the construction of a scheduler ends, for a configuration that is
    a dict (no key twice).  It raises the error of the first
    configuration entry, in the order in which the items of the
    configuration are gone through, that has one: [KeyError] for a
    missing ["schedule"], [OverflowError] for an int too large for a
    timedelta, [TypeError] for a missing ["name"] or a key the entry
    constructor does not take.  Otherwise it returns: the mapping has the
    keys of the configuration and no others, one entry for each; the
    entry under a key is built from the configuration entry of that key
    as that entry is left (name, converted schedule, configured or
    default arguments, run count and last run); and [max_interval] is the
    argument, or the configured default when the argument is [None]
    or 0. *)
Theorem scheduler_construction_outcome (env : Env)
    (arg : option (list (string * ScheduleEntry))) (mi : option Z) (s : State)
    (Hdict : NoDup (keys (conf_schedule s))) :
  let s' := snd (Scheduler_init env arg mi s) in
  match first_error (conf_schedule s) with
  | Some x =>
      fst (Scheduler_init env arg mi s) = Raise x
      /\ (x = KeyError "schedule" \/ x = OverflowError \/ x = TypeError)
  | None =>
      fst (Scheduler_init env arg mi s) = Ret tt
      /\ (forall k, has_key k (data s') = has_key k (conf_schedule s))
      /\ List.length (data s') = List.length (conf_schedule s)
      /\ (forall k,
            match dict_get k (conf_schedule s') with
            | Some c =>
                exists e, dict_get k (data s') = Some e /\ built_from (k, e) (k, c)
            | None => dict_get k (data s') = None
            end)
      /\ max_interval s'
         = match mi with
           | Some m => if m =? 0 then CELERYBEAT_MAX_LOOP_INTERVAL env else m
           | None => CELERYBEAT_MAX_LOOP_INTERVAL env
           end
  end.
Proof.
  intro s'. subst s'. rewrite Scheduler_init_eq.
  pose proof (@dict_to_entries_spec env s Hdict) as H.
  pose proof (@first_error_kinds (conf_schedule s)) as Hk.
  destruct (first_error (conf_schedule s)) as [x|].
  - destruct (dict_to_entries env s) as [[entries|y] s1]; cbn [fst] in H;
      [discriminate H|].
    injection H as ->. split; [reflexivity|]. apply Hk. reflexivity.
  - destruct H as (entries & Hr & Hc & Hall).
    destruct (dict_to_entries env s) as [[entries'|y] s1]; cbn [fst snd] in *;
      [|discriminate Hr].
    injection Hr as ->. split; [reflexivity|].
    cbn [data conf_schedule max_interval set_data set_max_interval].
    assert (Hkeys : keys entries = keys (conf_schedule s)).
    { rewrite (@Forall2_built_from_keys _ _ Hall). apply keys_convert. }
    split; [intro k; unfold has_key; rewrite Hkeys; reflexivity|].
    split.
    { rewrite <- (length_map fst entries). fold (keys entries).
      rewrite Hkeys. unfold keys. apply length_map. }
    split; [|reflexivity].
    rewrite Hc. apply Forall2_built_from_lookup. exact Hall.
Qed.

Lemma scheduler_construction_outcome_witness :
  fst (Scheduler_init example_env None (Some 0) (mkState [] 0 [] renamed_conf 0 0 []))
  = Ret tt
  /\ (forall k,
        has_key k (data (snd (Scheduler_init example_env None (Some 0)
                                (mkState [] 0 [] renamed_conf 0 0 []))))
        = has_key k renamed_conf)
  /\ List.length (data (snd (Scheduler_init example_env None (Some 0)
                               (mkState [] 0 [] renamed_conf 0 0 []))))
     = 1%nat
  /\ (forall k,
        match dict_get k (conf_schedule
                            (snd (Scheduler_init example_env None (Some 0)
                                    (mkState [] 0 [] renamed_conf 0 0 [])))) with
        | Some c =>
            exists e,
              dict_get k (data (snd (Scheduler_init example_env None (Some 0)
                                       (mkState [] 0 [] renamed_conf 0 0 []))))
              = Some e
              /\ built_from (k, e) (k, c)
        | None =>
            dict_get k (data (snd (Scheduler_init example_env None (Some 0)
                                     (mkState [] 0 [] renamed_conf 0 0 []))))
            = None
        end)
  /\ max_interval (snd (Scheduler_init example_env None (Some 0)
                          (mkState [] 0 [] renamed_conf 0 0 [])))
     = 300.
Proof.
  apply (@scheduler_construction_outcome example_env None (Some 0)
           (mkState [] 0 [] renamed_conf 0 0 [])).
  repeat constructor. cbn. tauto.
Defined.

(** * A mapping that grows under the scan *)

(** X13: A reservation under a name that is no key makes the mapping
    grow while [tick] goes through it; the [RuntimeError] with which the
    iteration then ends is swallowed.  So, keys and names being what
    they may: when every schedule is a policy object (whose [is_due]
    answers) and [send_task] either returns or raises an [Exception],
    [tick] returns, and what it returns is the least of [max_interval]
    and the true remaining values that were reported before the scan
    ended. *)
Theorem tick_returns_though_the_mapping_grows (env : Env) (s : State) :
  all_have_is_due (data s) = true -> catchable env ->
  exists v,
    fst (tick env s) = Ret v
    /\ py_min (filter true_value (reported env s) ++ [max_interval s]) = Ret v.
Proof.
  intros Hd Hc.
  assert (Hret : exists v, fst (tick env s) = Ret v).
  { rewrite tick_eq.
    pose proof (@for_itervalues_rule (List.length (data s)) (tick_body env)
                  (fun _ s' => all_have_is_due (data s') = true)
                  (fun _ _ => False)) as H.
    assert (Hbody : forall pos k e s',
               all_have_is_due (data s') = true ->
               List.length (data s') = List.length (data s) ->
               nth_error (data s') pos = Some (k, e) ->
               match tick_body env e s' with
               | (Ret _, s'') => all_have_is_due (data s'') = true
               | (Raise _, _) => False
               end).
    { intros pos k e s' Hall _ N.
      assert (He : has_is_due e = true).
      { unfold all_have_is_due in Hall. rewrite forallb_forall in Hall.
        exact (Hall (k, e) (nth_error_In _ _ N)). }
      pose proof (tick_body_outcome env e s') as Ho.
      rewrite (@body_outcome_ret env e s' Hc He) in Ho.
      pose proof (tick_body_data env e s') as Hda.
      destruct (tick_body env e s') as [[[]|y] s'']; cbn [fst snd] in *;
        [|discriminate Ho].
      rewrite Hda. unfold body_data.
      destruct (due_now env e s') as [[[|] rem]|]; try exact Hall.
      apply (forallb_dict_set has_is_due); [exact Hall|exact He]. }
    specialize (H Hbody (List.length (data s)) O (tick_started s) Hd eq_refl).
    unfold tick_finish.
    destruct (for_itervalues _ _ _ _ _) as [[[]|y] s1].
    - destruct (py_min_snoc (remaining_times s1) (max_interval s1)) as [v Hv].
      exists v. exact Hv.
    - destruct H as [(-> & _)|[]]. cbn [is_RuntimeError].
      destruct (py_min_snoc (remaining_times s1) (max_interval s1)) as [v Hv].
      exists v. exact Hv. }
  destruct Hret as [v Hv]. exists v. split; [exact Hv|].
  exact (@tick_returns_min env s v Hv).
Qed.

Lemma tick_returns_though_the_mapping_grows_witness :
  List.length (data renamed_pair_state) = 2%nat
  /\ List.length (data (snd (tick example_env renamed_pair_state))) = 3%nat
  /\ List.length (reported example_env renamed_pair_state) = 1%nat
  /\ exists v,
       fst (tick example_env renamed_pair_state) = Ret v
       /\ py_min (filter true_value (reported example_env renamed_pair_state)
                  ++ [300]) = Ret v.
Proof.
  split; [reflexivity|]. split; [reflexivity|]. split; [reflexivity|].
  apply (@tick_returns_though_the_mapping_grows example_env renamed_pair_state);
    [reflexivity|exact example_env_catchable].
Defined.
